(** * alecthomas/binary: the reflection-driven binary codec of binary.go

    A shallow embedding of [Marshal], [Unmarshal], [Encoder.Encode],
    [Encoder.writeVarint] and [Decoder.Decode], together with the parts of
    the Go standard library they call ([encoding/binary], [bufio], [bytes],
    [io], [reflect]), followed by the properties of the codec.

    Conventions.
    - A byte is a [Z] in [0, 256); a w-bit integer is a [Z] with its
      wrap-around written out.  [int] and [uint] are 64 bits wide (amd64).
    - A Go value held in an [interface{}] is a pair of its dynamic type
      ([type]) and its contents ([data]); [reflect.Value] is the same pair
      plus the addressable flag.
    - Floating-point numbers are kept as their IEEE-754 bit patterns, which
      is all that [encoding/binary] looks at.
    - Interface-typed elements, embedded fields and nil pointers are
      outside the model.
    - The memory a value takes is not part of a [type]: [make([]byte, l)],
      whose size is [l] itself, has the runtime's limit [maxAlloc], while
      [reflect.MakeSlice] is taken to succeed for every count that is an
      [int], and running out of memory is no outcome of the model. *)

From Stdlib Require Import String Ascii ZArith List Bool Lia.
Import ListNotations.
Local Open Scope Z_scope.

#[local] Set Warnings "-register-all".

(** ** Types and values *)

Definition byte := Z.

(** The predeclared scalar types the type switches of binary.go list. *)
Inductive scalar :=
| Bool | Int | Uint
| Int8 | Uint8 | Int16 | Uint16 | Int32 | Uint32 | Int64 | Uint64
| Float32 | Float64 | Complex64 | Complex128.

(** A Go type.  [name] is [Some n] for a defined type ([type n ...]) and
    [None] for a predeclared type or a type literal; the constructor is the
    type's [reflect.Kind]. *)
Inductive type :=
| TScalar (name : option string) (s : scalar)
| TString (name : option string)
| TSlice (name : option string) (elem : type)
| TArray (name : option string) (len : nat) (elem : type)
| TMap (name : option string) (key elem : type)
| TStruct (name : option string) (fields : list (string * type))
| TPtr (elem : type).

(** The contents of a value.  Integers are their mathematical value,
    floats their bit pattern, complex numbers the bit patterns of the real
    and imaginary parts.  [DSeq] holds the elements of a slice or array and
    the fields of a struct in declaration order; [DMap] holds the entries
    of a map in the order [reflect.Value.MapKeys] returns them. *)
Inductive data :=
| DBool (b : bool)
| DNum (z : Z)
| DCplx (re im : Z)
| DStr (s : list byte)
| DSeq (elems : list data)
| DMap (entries : list (data * data))
| DPtr (pointee : data).

Definition type_name (t : type) : option string :=
  match t with
  | TScalar n _ | TString n | TSlice n _ | TArray n _ _ | TMap n _ _
  | TStruct n _ => n
  | TPtr _ => None
  end.

Inductive error :=
| EOF                              (* io.EOF *)
| ErrUnexpectedEOF                 (* io.ErrUnexpectedEOF *)
| ErrOverflow                      (* binary: varint overflows a 64-bit integer *)
| ErrUnsupported (t : type)        (* "unsupported type " + t.String() *)
| ErrNotPointer                    (* "can only Decode to pointer type" *)
| ErrSize (encoded : Z) (real : Z) (* "encoded size %d != real size %d" *)
| ErrOther (msg : string).         (* an error of the sink or of a custom method *)

Inductive panic :=
| IndexOutOfRange                  (* runtime error: index out of range *)
| LenOutOfRange                    (* makeslice / reflect.MakeSlice: len out of range *)
| ZeroValue.                       (* reflect: call of Value.Interface on zero Value *)

(** What a call leaves behind: the error it returned (if any) with the
    state it reached, or a panic. *)
Inductive result (S : Type) :=
| Normal (err : option error) (s : S)
| Panicked (p : panic).
Arguments Normal {S} err s.
Arguments Panicked {S} p.

(** [a ;; b]: run [a]; [if err != nil { return }]; run [b]. *)
Definition andThen {S : Type} (a b : S -> result S) : S -> result S :=
  fun s => match a s with
           | Normal None s' => b s'
           | r => r
           end.
Notation "a ;; b" := (andThen a b) (at level 61, right associativity).

(** A [for] loop over [l] whose body returns on the first error. *)
Fixpoint forEach {A S : Type} (body : A -> S -> result S) (l : list A)
  : S -> result S :=
  match l with
  | [] => Normal None
  | x :: l' => body x ;; forEach body l'
  end.

(** ** Fixed-width integers *)

Definition wrap (bits : Z) (z : Z) : Z := z mod 2 ^ bits.

Definition signed (bits : Z) (z : Z) : Z :=
  let m := wrap bits z in
  if m <? 2 ^ (bits - 1) then m else m - 2 ^ bits.

Definition uint64 (z : Z) : Z := wrap 64 z.
Definition int64 (z : Z) : Z := signed 64 z.
Definition toByte (z : Z) : byte := wrap 8 z.

(** [binary.LittleEndian.PutUint16/32/64]: the [n] low bytes of [v],
    least significant first. *)
Fixpoint PutUint (n : nat) (v : Z) : list byte :=
  match n with
  | O => []
  | S n' => toByte v :: PutUint n' (Z.shiftr v 8)
  end.

(** [binary.LittleEndian.Uint16/32/64]. *)
Fixpoint GetUint (bs : list byte) : Z :=
  match bs with
  | [] => 0
  | b :: bs' => Z.lor b (Z.shiftl (GetUint bs') 8)
  end.

(** [binary.ByteOrder] with its [PutUintN] and [UintN] methods. *)
Inductive ByteOrder := LittleEndian | BigEndian.

Definition PutUintN (order : ByteOrder) (n : nat) (v : Z) : list byte :=
  match order with
  | LittleEndian => PutUint n v
  | BigEndian => rev (PutUint n v)
  end.

Definition UintN (order : ByteOrder) (bs : list byte) : Z :=
  match order with
  | LittleEndian => GetUint bs
  | BigEndian => GetUint (rev bs)
  end.

(** [var DefaultEndian = binary.LittleEndian]; nothing in the package
    assigns it. *)
Definition DefaultEndian : ByteOrder := LittleEndian.

(** ** encoding/binary: varints *)

Definition MaxVarintLen64 : nat := 10.

(** [binary.PutUvarint(buf, x)].  The argument [buf] is the part of the
    buffer from the current index on, so the loop
    [for x >= 0x80 { buf[i] = byte(x) | 0x80; x >>= 7; i++ }; buf[i] = byte(x)]
    is a recursion on it; running off its end is the index-out-of-range
    panic ([None]).  Returns the buffer as written and the count [i + 1]. *)
Fixpoint PutUvarint (buf : list byte) (x : Z) : option (list byte * Z) :=
  match buf with
  | [] => None
  | old :: rest =>
      if 128 <=? x then
        match PutUvarint rest (Z.shiftr x 7) with
        | Some (rest', n) => Some (Z.lor (toByte x) 128 :: rest', n + 1)
        | None => None
        end
      else Some (toByte x :: rest, 1)
  end.

(** ** io.Writer and bytes.Buffer *)

(** [Write(p) (n int, err error)] over an explicit sink state. *)
Class Writer (W : Type) := Write : W -> list byte -> W * (Z * option error).

(** [bytes.Buffer]: the bytes written so far. *)
Definition Buffer := list byte.

#[export] Instance Buffer_Writer : Writer Buffer :=
  fun b p => (b ++ p, (Z.of_nat (length p), None)).

(** ** bytes.Reader under bufio.Reader *)

(** [bufio]'s [defaultBufSize]. *)
Definition defaultBufSize : nat := 4096.

(** A [bufio.Reader] wrapped around a [bytes.Reader], as [Unmarshal] builds
    it: [buffered] is [b.buf[b.r:b.w]], [source] is the unread part
    [r.s[r.i:]] of the byte slice.  [bytes.Reader.Read] returns either
    [n > 0] with a nil error or [0, io.EOF], so [b.err] is nil between any
    two calls and is not part of the state. *)
Record Reader := mkReader { buffered : list byte; source : list byte }.

Definition NewReader (b : list byte) : Reader := mkReader [] b.

(** [bufio.Reader.ReadByte]: an empty buffer is refilled with one
    [bytes.Reader.Read] of up to [defaultBufSize] bytes. *)
Definition ReadByte (r : Reader) : byte * option error * Reader :=
  match buffered r with
  | c :: rest => (c, None, mkReader rest (source r))
  | [] =>
      match firstn defaultBufSize (source r) with
      | [] => (0, Some EOF, r)
      | c :: rest => (c, None, mkReader rest (skipn defaultBufSize (source r)))
      end
  end.

(** [bufio.Reader.Read(p)] with [len(p) = n]: returns the bytes copied
    into [p].  With an empty buffer a read of [defaultBufSize] or more goes
    to the source directly; a smaller one refills the buffer once.  What is
    buffered is then copied out, at most [n] bytes, without a second look
    at the source. *)
Definition Read (n : nat) (r : Reader) : list byte * option error * Reader :=
  match n with
  | O => ([], None, r)
  | _ =>
      match buffered r with
      | [] =>
          if (defaultBufSize <=? n)%nat then
            match source r with
            | [] => ([], Some EOF, r)
            | _ => (firstn n (source r), None, mkReader [] (skipn n (source r)))
            end
          else
            match firstn defaultBufSize (source r) with
            | [] => ([], Some EOF, r)
            | chunk =>
                (firstn n chunk, None,
                 mkReader (skipn n chunk) (skipn defaultBufSize (source r)))
            end
      | chunk => (firstn n chunk, None, mkReader (skipn n chunk) (source r))
      end
  end.

(** [io.ReadFull(r, buf)] with [len(buf) = n], that is [io.ReadAtLeast]:
    [for n < min && err == nil { nn, err = r.Read(buf[n:]); n += nn }].
    Every [Read] that returns no error returns at least one byte, so [need]
    iterations are enough; [fuel] counts them. *)
Fixpoint ReadAtLeast (fuel : nat) (need : nat) (r : Reader)
  : list byte * option error * Reader :=
  match need, fuel with
  | O, _ => ([], None, r)
  | _, O => ([], Some ErrUnexpectedEOF, r)
  | _, S fuel' =>
      let '(got, err, r') := Read need r in
      match err with
      | Some e => (got, Some e, r')
      | None =>
          let '(more, err', r'') :=
            ReadAtLeast fuel' (need - length got) r' in
          (got ++ more, err', r'')
      end
  end.

Definition ReadFull (n : nat) (r : Reader) : list byte * option error * Reader :=
  let '(got, err, r') := ReadAtLeast n n r in
  match err with
  | Some EOF =>
      (got, Some (match got with [] => EOF | _ => ErrUnexpectedEOF end), r')
  | _ => (got, err, r')
  end.

(** [binary.ReadUvarint]: at most [MaxVarintLen64] bytes; [n] counts the
    iterations left, [i] is the loop index. *)
Fixpoint ReadUvarint_loop (n : nat) (i x s : Z) (r : Reader)
  : Z * option error * Reader :=
  match n with
  | O => (x, Some ErrOverflow, r)
  | S n' =>
      let '(b, err, r') := ReadByte r in
      match err with
      | Some e =>
          (x, Some (match e with
                    | EOF => if 0 <? i then ErrUnexpectedEOF else EOF
                    | _ => e
                    end), r')
      | None =>
          if b <? 128 then
            if (i =? Z.of_nat MaxVarintLen64 - 1) && (1 <? b)
            then (x, Some ErrOverflow, r')
            else (Z.lor x (uint64 (Z.shiftl b s)), None, r')
          else
            ReadUvarint_loop n' (i + 1)
              (Z.lor x (uint64 (Z.shiftl (Z.land b 127) s))) (s + 7) r'
      end
  end.

Definition ReadUvarint (r : Reader) : Z * option error * Reader :=
  ReadUvarint_loop MaxVarintLen64 0 0 0 r.

(** ** Methods of defined types *)

Inductive receiver := ByValue | ByPointer.

(** The [encoding.BinaryMarshaler] and [encoding.BinaryUnmarshaler] methods
    a defined type declares, each with the kind of its receiver.
    [MarshalBinary] maps the receiver's contents to [(data, err)];
    [UnmarshalBinary] maps the receiver's contents and the blob to the
    receiver's new contents and an error. *)
Record method_set := mkMethods {
  MarshalBinary : option (receiver * (data -> list byte * option error));
  UnmarshalBinary :
    option (receiver * (data -> list byte -> data * option error))
}.

Definition no_methods : method_set := mkMethods None None.

(** ** reflect *)

(** A struct field is exported when its name starts with an upper-case
    letter.  Names are taken to be ASCII; Go also exports a name whose
    first rune is an upper-case letter outside ASCII. *)
Definition exported (name : string) : bool :=
  match name with
  | String c _ => ((65 <=? nat_of_ascii c) && (nat_of_ascii c <=? 90))%nat
  | EmptyString => false
  end.

(** [v.CanSet()] for the field [name] of a struct value: the struct is
    addressable and the field was not reached through an unexported name. *)
Definition CanSet (addressable : bool) (name : string) : bool :=
  addressable && exported name.

Definition deref (d : data) : data :=
  match d with DPtr x => x | _ => d end.

Definition elems (d : data) : list data :=
  match d with DSeq l => l | _ => [] end.

Definition entries (d : data) : list (data * data) :=
  match d with DMap m => m | _ => [] end.

Definition num (d : data) : Z :=
  match d with DNum z => z | _ => 0 end.

Definition truth (d : data) : bool :=
  match d with DBool b => b | _ => false end.

(** [len(v)] for strings, slices, arrays and maps. *)
Definition len {A : Type} (l : list A) : Z := Z.of_nat (length l).

(** The bytes written for a scalar: [binary.Write(w, order, v)] lays the
    value out with [order.PutUintN]; floats go through [math.FloatNbits],
    complex numbers are the real part followed by the imaginary part. *)
Definition sizeof (s : scalar) : nat :=
  match s with
  | Bool | Int8 | Uint8 => 1
  | Int16 | Uint16 => 2
  | Int32 | Uint32 | Float32 => 4
  | Int | Uint | Int64 | Uint64 | Float64 | Complex64 => 8
  | Complex128 => 16
  end%nat.

Definition scalar_bytes (order : ByteOrder) (s : scalar) (d : data) : list byte :=
  match s, d with
  | Bool, DBool b => [if b then 1 else 0]
  | Complex64, DCplx re im => PutUintN order 4 re ++ PutUintN order 4 im
  | Complex128, DCplx re im => PutUintN order 8 re ++ PutUintN order 8 im
  | _, DNum z => PutUintN order (sizeof s) z
  | _, _ => PutUintN order (sizeof s) 0
  end.

(** The value [binary.Read] stores for the bytes [bs]: [intN(order.UintN(bs))]
    for the signed kinds, [order.UintN(bs)] otherwise. *)
Definition scalar_value (order : ByteOrder) (s : scalar) (bs : list byte) : data :=
  match s with
  | Bool => DBool (negb (nth 0 bs 0 =? 0))
  | Int8 => DNum (signed 8 (UintN order bs))
  | Int16 => DNum (signed 16 (UintN order bs))
  | Int32 => DNum (signed 32 (UintN order bs))
  | Int | Int64 => DNum (signed 64 (UintN order bs))
  | Complex64 => DCplx (UintN order (firstn 4 bs)) (UintN order (skipn 4 bs))
  | Complex128 => DCplx (UintN order (firstn 8 bs)) (UintN order (skipn 8 bs))
  | _ => DNum (UintN order bs)
  end.

(** IEEE-754 [==] on bit patterns with [m] mantissa bits and [e] exponent
    bits: a NaN equals nothing, the two zeros are equal. *)
Definition float_eq (m e : Z) (a b : Z) : bool :=
  let nan x := (Z.shiftr x m mod 2 ^ e =? 2 ^ e - 1) && negb (x mod 2 ^ m =? 0) in
  let zero x := x mod 2 ^ (m + e) =? 0 in
  negb (nan a) && negb (nan b) && ((a =? b) || (zero a && zero b)).

Definition scalar_eq (s : scalar) (a b : data) : bool :=
  match s, a, b with
  | Bool, DBool x, DBool y => Bool.eqb x y
  | Float32, DNum x, DNum y => float_eq 23 8 x y
  | Float64, DNum x, DNum y => float_eq 52 11 x y
  | Complex64, DCplx x1 x2, DCplx y1 y2 =>
      float_eq 23 8 x1 y1 && float_eq 23 8 x2 y2
  | Complex128, DCplx x1 x2, DCplx y1 y2 =>
      float_eq 52 11 x1 y1 && float_eq 52 11 x2 y2
  | _, DNum x, DNum y => x =? y
  | _, _, _ => false
  end.

(** Go's [==] on the comparable types, the equality a map uses for its
    keys.  Slices and maps are not comparable; pointer identity is not
    modelled. *)
Fixpoint key_eq (t : type) (a b : data) {struct t} : bool :=
  match t with
  | TScalar _ s => scalar_eq s a b
  | TString _ =>
      match a, b with
      | DStr x, DStr y => if list_eq_dec Z.eq_dec x y then true else false
      | _, _ => false
      end
  | TArray _ _ e =>
      (fix all (xs ys : list data) : bool :=
         match xs, ys with
         | [], [] => true
         | x :: xs', y :: ys' => key_eq e x y && all xs' ys'
         | _, _ => false
         end) (elems a) (elems b)
  | TStruct _ fs =>
      (fix all (fs : list (string * type)) (xs ys : list data) : bool :=
         match fs, xs, ys with
         | [], _, _ => true
         | (_, ft) :: fs', x :: xs', y :: ys' => key_eq ft x y && all fs' xs' ys'
         | _, _, _ => false
         end) fs (elems a) (elems b)
  | _ => false
  end.

(** [rv.MapIndex(key)]: the zero Value ([None]) when no entry has a key
    equal to [key]. *)
Fixpoint MapIndex (kt : type) (m : list (data * data)) (key : data)
  : option data :=
  match m with
  | [] => None
  | (k, v) :: m' => if key_eq kt k key then Some v else MapIndex kt m' key
  end.

(** [rv.SetMapIndex(key, value)]: an entry with an equal key is replaced,
    otherwise the entry is new. *)
Fixpoint SetMapIndex (kt : type) (m : list (data * data)) (key value : data)
  : list (data * data) :=
  match m with
  | [] => [(key, value)]
  | (k, v) :: m' =>
      if key_eq kt k key then (key, value) :: m'
      else (k, v) :: SetMapIndex kt m' key value
  end.

(** The zero value of a type: [reflect.New(t).Elem()], the elements of
    [reflect.MakeSlice], a freshly declared variable.  The zero value of a
    pointer type, nil, is not modelled; [Decode] rejects a pointer to a
    pointer before it looks at the pointee. *)
Fixpoint zero (t : type) : data :=
  match t with
  | TScalar _ Bool => DBool false
  | TScalar _ (Complex64 | Complex128) => DCplx 0 0
  | TScalar _ _ => DNum 0
  | TString _ => DStr []
  | TSlice _ _ => DSeq []
  | TArray _ n e => DSeq (repeat (zero e) n)
  | TMap _ _ _ => DMap []
  | TStruct _ fs => DSeq (map (fun f => zero (snd f)) fs)
  | TPtr e => DPtr (zero e)
  end.

(** ** binary.go *)

Section Codec.

(** The method declarations of the program, by type name. *)
Variable methods : string -> method_set.

Definition methods_of (t : type) : method_set :=
  match type_name t with
  | Some n => methods n
  | None => no_methods
  end.

(** [v.(encoding.BinaryMarshaler)] for [v] of dynamic type [t]: the method
    set of a defined type [T] holds its value-receiver methods, that of
    [*T] holds all of them.  The result takes the contents of [v]. *)
Definition asBinaryMarshaler (t : type)
  : option (data -> list byte * option error) :=
  match t with
  | TPtr e =>
      match MarshalBinary (methods_of e) with
      | Some (_, m) => Some (fun d => m (deref d))
      | None => None
      end
  | _ =>
      match MarshalBinary (methods_of t) with
      | Some (ByValue, m) => Some m
      | _ => None
      end
  end.

(** [v.(encoding.BinaryUnmarshaler)] for [v] of dynamic type [*t]; a
    value-receiver method works on a copy and leaves [*v] as it was. *)
Definition asBinaryUnmarshaler (t : type)
  : option (data -> list byte -> data * option error) :=
  match UnmarshalBinary (methods_of t) with
  | Some (ByPointer, u) => Some u
  | Some (ByValue, u) => Some (fun d b => (d, snd (u d b)))
  | None => None
  end.

Section Encoding.

Context {W : Type} {sink : Writer W}.

(** [type Encoder struct { w io.Writer; buf []byte }] *)
Record Encoder := mkEncoder { w : W; buf : list byte }.

(** [&Encoder{w, make([]byte, 8)}] *)
Definition NewEncoder (w : W) : Encoder := mkEncoder w (repeat 0 8%nat).

(** [_, err = e.w.Write(p)] *)
Definition write (p : list byte) : Encoder -> result Encoder :=
  fun e => let '(w', (_, err)) := Write (w e) p in
           Normal err (mkEncoder w' (buf e)).

(** [_, err = b.w.Write(buf)] in the [encoding.BinaryMarshaler] case.  The
    [err] assigned there is the variable that [buf, err := cv.MarshalBinary()]
    declared in the case clause, not the result of [Encode]; the [return]
    after the switch returns the result, which is still nil, so the error
    of this [Write] is lost. *)
Definition writeShadowed (p : list byte) : Encoder -> result Encoder :=
  fun e => let '(w', _) := Write (w e) p in
           Normal None (mkEncoder w' (buf e)).

(** [err = binary.Write(b.w, order, v)] for [v] of the scalar type [s]. *)
Definition binaryWrite (order : ByteOrder) (s : scalar) (v : data)
  : Encoder -> result Encoder :=
  write (scalar_bytes order s v).

(** [func (e *Encoder) writeVarint(v int) error] *)
Definition writeVarint (v : Z) : Encoder -> result Encoder :=
  fun e => match PutUvarint (buf e) (uint64 v) with
           | None => Panicked IndexOutOfRange
           | Some (buf', l) =>
               write (firstn (Z.to_nat l) buf') (mkEncoder (w e) buf')
           end.

(** The loop of the [reflect.Struct] branch,
    [if v := rv.Field(i); v.CanSet() && t.Field(i).Name != "_" { ... b.Encode(v.Interface()) ... }],
    over the fields [fs] of the struct type and their contents [ds]. *)
Fixpoint encodeFields (self : type -> data -> Encoder -> result Encoder)
  (addressable : bool) (fs : list (string * type)) (ds : list data)
  : Encoder -> result Encoder :=
  match fs, ds with
  | (name, ft) :: fs', fd :: ds' =>
      (if CanSet addressable name && negb (String.eqb name "_")
       then self ft fd else Normal None) ;;
      encodeFields self addressable fs' ds'
  | _, _ => Normal None
  end.

(** The [default:] branch of [Encode] on [rv := reflect.Indirect(reflect.ValueOf(v))]
    of type [rt], contents [rd]; [self] is [Encode]. *)
Definition encodeValue (self : type -> data -> Encoder -> result Encoder)
  (rt : type) (rd : data) (addressable : bool) : Encoder -> result Encoder :=
  match rt with
  | TArray _ n e =>
      writeVarint (Z.of_nat n) ;; forEach (self e) (elems rd)
  | TSlice _ e =>
      writeVarint (len (elems rd)) ;; forEach (self e) (elems rd)
  | TStruct _ fs => encodeFields self addressable fs (elems rd)
  | TMap _ kt vt =>
      writeVarint (len (entries rd)) ;;
      forEach (fun key =>
                 self kt key ;;
                 match MapIndex kt (entries rd) key with
                 | Some value => self vt value
                 | None => fun _ => Panicked ZeroValue
                 end)
              (map fst (entries rd))
  | _ => Normal (Some (ErrUnsupported rt))
  end.

(** [func (b *Encoder) Encode(v interface{}) (err error)], [v] of dynamic
    type [t] with contents [d]. *)
Fixpoint Encode (t : type) (d : data) {struct t} : Encoder -> result Encoder :=
  match asBinaryMarshaler t with
  | Some MarshalBinary =>
      let '(buf, err) := MarshalBinary d in
      match err with
      | Some e => Normal (Some e)
      | None => writeVarint (len buf) ;; writeShadowed buf
      end
  | None =>
      match t with
      | TSlice None (TScalar None Uint8) =>
          writeVarint (len (elems d)) ;; write (map num (elems d))
      | TString None =>
          match d with
          | DStr cv => writeVarint (len cv) ;; write cv
          | _ => writeVarint 0 ;; write []
          end
      | TScalar None Bool =>
          let out := if truth d then 1 else 0 in
          binaryWrite DefaultEndian Uint8 (DNum out)
      | TScalar None Int => binaryWrite DefaultEndian Int64 (DNum (int64 (num d)))
      | TScalar None Uint => binaryWrite DefaultEndian Int64 (DNum (int64 (num d)))
      | TScalar None s => binaryWrite DefaultEndian s d
      | TPtr e => encodeValue Encode e (deref d) true
      | _ => encodeValue Encode t d false
      end
  end.

End Encoding.

(** [func Marshal(v interface{}) ([]byte, error)]: the bytes returned, nil
    ([[]]) next to an error. *)
Definition Marshal (t : type) (d : data) : result (list byte) :=
  match Encode t d (NewEncoder ([] : Buffer)) with
  | Normal None e => Normal None (w e)
  | Normal (Some err) _ => Normal (Some err) []
  | Panicked p => Panicked p
  end.

(** *** Decoder *)

(** [type Decoder struct { r *bufio.Reader }] *)
Definition Decoder := Reader.

(** The state of a [Decode] call: the contents of the target and the reader. *)
Definition decoding := (data * Decoder)%type.

(** The runtime's [maxAlloc] (amd64): the most bytes one allocation may
    ask for. *)
Definition maxAlloc : Z := 2 ^ 48.

(** [buf := make([]byte, l); _, err = d.r.Read(buf)]: the buffer afterwards
    (what was read, then the zeros [make] put there) and [err].  [make]
    panics (makeslice: len out of range) when [int(l)] is negative or
    above [maxAlloc]; for the [uint64] [l] both mean [maxAlloc < l].
    Below that the runtime is taken to grant the memory. *)
Definition readBlob (l : Z) (r : Decoder)
  : option (list byte * option error * Decoder) :=
  if maxAlloc <? l then None
  else
    let n := Z.to_nat l in
    let '(got, err, r') := Read n r in
    Some (got ++ repeat 0 (n - length got), err, r').

(** [err = binary.Read(d.r, order, &out)] for [out] of the scalar type
    [s]: the value stored in [out], if any. *)
Definition binaryRead (order : ByteOrder) (s : scalar) (r : Decoder)
  : option data * option error * Decoder :=
  let '(bs, err, r') := ReadFull (sizeof s) r in
  match err with
  | Some e => (None, Some e, r')
  | None => (Some (scalar_value order s bs), None, r')
  end.

(** The [encoding.BinaryUnmarshaler] branch of [Decode]. *)
Definition decodeBinary (UnmarshalBinary : data -> list byte -> data * option error)
  (d : data) (r : Decoder) : result decoding :=
  let '(l, err, r1) := ReadUvarint r in
  match err with
  | Some e => Normal (Some e) (d, r1)
  | None =>
      match readBlob l r1 with
      | None => Panicked LenOutOfRange
      | Some (buf, _, r2) =>
          let '(d', err') := UnmarshalBinary d buf in
          Normal err' (d', r2)
      end
  end.

(** The loop of the [reflect.Array, reflect.Slice] branch,
    [if err = d.Decode(rv.Index(i).Addr().Interface()); err != nil { return }],
    over the elements [ds] of [rv]. *)
Fixpoint decodeElems (dec : data -> Decoder -> result decoding)
  (ds : list data) (r : Decoder) : result (list data * Decoder) :=
  match ds with
  | [] => Normal None ([], r)
  | x :: ds' =>
      match dec x r with
      | Normal None (x', r') =>
          match decodeElems dec ds' r' with
          | Normal err (ds'', r'') => Normal err (x' :: ds'', r'')
          | Panicked p => Panicked p
          end
      | Normal (Some e) (x', r') => Normal (Some e) (x' :: ds', r')
      | Panicked p => Panicked p
      end
  end.

(** The loop of the [reflect.Map] branch, [n] iterations left, [m] the
    entries set so far. *)
Fixpoint decodeEntries (kt vt : type)
  (decKey decElem : data -> Decoder -> result decoding)
  (n : nat) (m : list (data * data)) (r : Decoder)
  : result (list (data * data) * Decoder) :=
  match n with
  | O => Normal None (m, r)
  | S n' =>
      match decKey (zero kt) r with
      | Normal None (kv, r1) =>
          match decElem (zero vt) r1 with
          | Normal None (vv, r2) =>
              decodeEntries kt vt decKey decElem n' (SetMapIndex kt m kv vv) r2
          | Normal (Some e) (_, r2) => Normal (Some e) (m, r2)
          | Panicked p => Panicked p
          end
      | Normal (Some e) (_, r1) => Normal (Some e) (m, r1)
      | Panicked p => Panicked p
      end
  end.

(** The loop of the [reflect.Struct] branch over the fields [fs] and their
    contents [ds]; [self] is [Decode] on a pointer to the field. *)
Fixpoint decodeFields (self : type -> data -> Decoder -> result decoding)
  (fs : list (string * type)) (ds : list data) (r : Decoder)
  : result (list data * Decoder) :=
  match fs, ds with
  | (name, ft) :: fs', fd :: ds' =>
      if CanSet true name && negb (String.eqb name "_") then
        match self ft fd r with
        | Normal None (fd', r') =>
            match decodeFields self fs' ds' r' with
            | Normal err (ds'', r'') => Normal err (fd' :: ds'', r'')
            | Panicked p => Panicked p
            end
        | Normal (Some e) (fd', r') => Normal (Some e) (fd' :: ds', r')
        | Panicked p => Panicked p
        end
      else
        match decodeFields self fs' ds' r with
        | Normal err (ds'', r'') => Normal err (fd :: ds'', r'')
        | Panicked p => Panicked p
        end
  | _, _ => Normal None (ds, r)
  end.

Definition withSeq (x : result (list data * Decoder)) : result decoding :=
  match x with
  | Normal err (ds, r) => Normal err (DSeq ds, r)
  | Panicked p => Panicked p
  end.

Definition withMap (x : result (list (data * data) * Decoder)) : result decoding :=
  match x with
  | Normal err (m, r) => Normal err (DMap m, r)
  | Panicked p => Panicked p
  end.

(** [func (d *Decoder) Decode(v interface{}) (err error)] for [v] a pointer
    to a variable of type [t] with contents [d]: the contents afterwards.
    [reflect.MakeSlice(t, int(l), int(l))] panics for a negative [int(l)];
    its other panic, for a count whose elements take more than [maxAlloc]
    bytes, depends on the size of an element in memory and is left out. *)
Fixpoint DecodeAt (t : type) (d : data) {struct t} : Decoder -> result decoding :=
  match t with
  | TString None =>
      fun r =>
        let '(l, err, r1) := ReadUvarint r in
        match err with
        | Some e => Normal (Some e) (d, r1)
        | None =>
            match readBlob l r1 with
            | None => Panicked LenOutOfRange
            | Some (buf, err, r2) => Normal err (DStr buf, r2)
            end
        end
  | TScalar None Bool =>
      fun r =>
        let '(out, err, r') := binaryRead DefaultEndian Uint8 r in
        let out := match out with Some o => o | None => DNum 0 end in
        Normal err (DBool (negb (num out =? 0)), r')
  | TScalar None Int =>
      fun r =>
        let '(out, err, r') := binaryRead DefaultEndian Int64 r in
        Normal err (match out with Some o => o | None => DNum 0 end, r')
  | TScalar None Uint =>
      fun r =>
        let '(out, err, r') := binaryRead DefaultEndian Uint64 r in
        Normal err (match out with Some o => o | None => DNum 0 end, r')
  | TScalar None s =>
      fun r =>
        let '(out, err, r') := binaryRead DefaultEndian s r in
        Normal err (match out with Some o => o | None => d end, r')
  | _ =>
      match asBinaryUnmarshaler t with
      | Some UnmarshalBinary => decodeBinary UnmarshalBinary d
      | None =>
          match t with
          | TSlice _ e =>
              fun r =>
                let '(l, err, r1) := ReadUvarint r in
                match err with
                | Some e => Normal (Some e) (d, r1)
                | None =>
                    if int64 l <? 0 then Panicked LenOutOfRange
                    else withSeq (decodeElems (DecodeAt e)
                                    (repeat (zero e) (Z.to_nat (int64 l))) r1)
                end
          | TArray _ n e =>
              fun r =>
                let '(l, err, r1) := ReadUvarint r in
                match err with
                | Some e => Normal (Some e) (d, r1)
                | None =>
                    if negb (int64 l =? Z.of_nat n)
                    then Normal (Some (ErrSize l (Z.of_nat n))) (d, r1)
                    else withSeq (decodeElems (DecodeAt e) (elems d) r1)
                end
          | TStruct _ fs =>
              fun r => withSeq (decodeFields DecodeAt fs (elems d) r)
          | TMap _ kt vt =>
              fun r =>
                let '(l, err, r1) := ReadUvarint r in
                match err with
                | Some e => Normal (Some e) (d, r1)
                | None =>
                    withMap (decodeEntries kt vt (DecodeAt kt) (DecodeAt vt)
                               (Z.to_nat (int64 l)) [] r1)
                end
          | _ => fun r => Normal (Some (ErrUnsupported t)) (d, r)
          end
      end
  end.

(** [Decode(v)] for [v] of dynamic type [t] with contents [d].  Every case
    of the type switch is a pointer type; a [v] that is no pointer either
    implements [encoding.BinaryUnmarshaler] with a value receiver or fails
    the [rv.CanAddr()] test. *)
Definition Decode (t : type) (d : data) : Decoder -> result decoding :=
  match t with
  | TPtr e =>
      fun r =>
        match DecodeAt e (deref d) r with
        | Normal err (d', r') => Normal err (DPtr d', r')
        | Panicked p => Panicked p
        end
  | _ =>
      match UnmarshalBinary (methods_of t) with
      | Some (ByValue, u) => decodeBinary (fun d b => (d, snd (u d b))) d
      | _ => fun r => Normal (Some ErrNotPointer) (d, r)
      end
  end.

(** [NewDecoder(r io.Reader)] over [bytes.NewReader(b)]. *)
Definition NewDecoder (b : list byte) : Decoder := NewReader b.

(** [func Unmarshal(b []byte, v interface{}) error]: the error, and the
    contents of [v] afterwards. *)
Definition Unmarshal (b : list byte) (t : type) (d : data) : result data :=
  match Decode t d (NewDecoder b) with
  | Normal err (d', _) => Normal err d'
  | Panicked p => Panicked p
  end.

End Codec.

Arguments Encoder W : clear implicits.

(** ** The types of the test suite *)

Definition string_t : type := TString None.
Definition int16_t : type := TScalar None Int16.
Definition bytes_t : type := TSlice None (TScalar None Uint8).

Definition str (s : string) : data :=
  DStr (map (fun c => Z.of_nat (nat_of_ascii c)) (list_ascii_of_string s)).

(** [type s0 struct { A string; B string; C int16 }] *)
Definition s0 : type :=
  TStruct (Some "s0"%string)
    [("A"%string, string_t); ("B"%string, string_t); ("C"%string, int16_t)].

(** [s0v = &s0{"A", "B", 1}] *)
Definition s0v : data := DPtr (DSeq [str "A"; str "B"; DNum 1]).
Definition s0b : list byte := [1; 65; 1; 66; 1; 0].

(** [type s2 struct { b []byte }] with its two pointer-receiver methods. *)
Definition s2 : type := TStruct (Some "s2"%string) [("b"%string, bytes_t)].

Definition s2_UnmarshalBinary (s : data) (blob : list byte) : data * option error :=
  if negb (len blob =? 1)
  then (s, Some (ErrOther "expected data to be length 1"))
  else (DSeq [DSeq (map DNum blob)], None).

Definition s2_MarshalBinary (s : data) : list byte * option error :=
  (map num (elems (nth 0 (elems s) (DSeq []))), None).

(** [type Foo int64] of TestMarshalUnMarshalTypeAliases. *)
Definition Foo : type := TScalar (Some "Foo"%string) Int64.

(** [time.Time], as far as TestBinaryEncodeComplex needs it: the seconds
    since year 1, the nanoseconds, and the zone as the offset in minutes
    that [MarshalBinary] writes (-1 for UTC).  [MarshalBinary] has a
    value receiver, [UnmarshalBinary] a pointer receiver; the encoding is
    the version byte 1 and the three numbers, big-endian. *)
Definition Time : type :=
  TStruct (Some "Time"%string)
    [("sec"%string, TScalar None Int64); ("nsec"%string, TScalar None Int32);
     ("offset"%string, int16_t)].

Definition Time_MarshalBinary (t : data) : list byte * option error :=
  let field i := num (nth i (elems t) (DNum 0)) in
  ([1] ++ PutUintN BigEndian 8 (field 0%nat) ++ PutUintN BigEndian 4 (field 1%nat)
       ++ PutUintN BigEndian 2 (field 2%nat), None).

Definition Time_UnmarshalBinary (t : data) (blob : list byte) : data * option error :=
  match blob with
  | [] => (t, Some (ErrOther "Time.UnmarshalBinary: no data"))
  | version :: buf =>
      if negb (version =? 1)
      then (t, Some (ErrOther "Time.UnmarshalBinary: unsupported version"))
      else if negb (len blob =? 15)
      then (t, Some (ErrOther "Time.UnmarshalBinary: invalid length"))
      else (DSeq [DNum (signed 64 (UintN BigEndian (firstn 8 buf)));
                  DNum (signed 32 (UintN BigEndian (firstn 4 (skipn 8 buf))));
                  DNum (signed 16 (UintN BigEndian (skipn 12 buf)))], None)
  end.

(** [type s1 struct { Name string; BirthDay time.Time; Phone string;
    Siblings int; Spouse bool; Money float64; Tags map[string]string;
    Aliases []string }] *)
Definition s1 : type :=
  TStruct (Some "s1"%string)
    [("Name"%string, string_t); ("BirthDay"%string, Time);
     ("Phone"%string, string_t); ("Siblings"%string, TScalar None Int);
     ("Spouse"%string, TScalar None Bool); ("Money"%string, TScalar None Float64);
     ("Tags"%string, TMap None string_t string_t);
     ("Aliases"%string, TSlice None string_t)].

(** [s1v]: the birthday is 2013-01-02 03:04:05.000000006 UTC, the money
    is the float64 100.0. *)
Definition s1v : data :=
  DPtr (DSeq [str "Bob Smith"; DSeq [DNum 63492692645; DNum 6; DNum (-1)];
              str "5551234567"; DNum 2; DBool false; DNum 0x4059000000000000;
              DMap [(str "key", str "value")];
              DSeq [str "Bobby"; str "Robert"]]).

Definition svb : list byte :=
  [0x9; 0x42; 0x6f; 0x62; 0x20; 0x53; 0x6d; 0x69; 0x74; 0x68; 0xf;
   0x1; 0x0; 0x0; 0x0; 0xe; 0xc8; 0x75; 0x9a; 0xa5; 0x0; 0x0; 0x0; 0x6; 0xff;
   0xff; 0xa; 0x35; 0x35; 0x35; 0x31; 0x32; 0x33; 0x34; 0x35; 0x36; 0x37; 0x2;
   0x0; 0x0; 0x0; 0x0; 0x0; 0x0; 0x0; 0x0; 0x0; 0x0; 0x0; 0x0; 0x0; 0x0; 0x59;
   0x40; 0x1; 0x3; 0x6b; 0x65; 0x79; 0x5; 0x76; 0x61; 0x6c; 0x75; 0x65; 0x2; 0x5;
   0x42; 0x6f; 0x62; 0x62; 0x79; 0x6; 0x52; 0x6f; 0x62; 0x65; 0x72; 0x74].

Definition test_methods (name : string) : method_set :=
  if String.eqb name "s2"
  then mkMethods (Some (ByPointer, s2_MarshalBinary))
                 (Some (ByPointer, s2_UnmarshalBinary))
  else if String.eqb name "Time"
  then mkMethods (Some (ByValue, Time_MarshalBinary))
                 (Some (ByPointer, Time_UnmarshalBinary))
  else no_methods.

(** [type inner struct { X int16 }] and
    [type outer struct { I inner; S string }]: a struct held by value in
    another. *)
Definition inner : type := TStruct (Some "inner"%string) [("X"%string, int16_t)].
Definition outer : type :=
  TStruct (Some "outer"%string) [("I"%string, inner); ("S"%string, string_t)].

(** [type Broken struct{}] with
    [func (Broken) MarshalBinary() ([]byte, error) { return nil, errors.New("broken") }]:
    a marshaler that always fails. *)
Definition Broken : type := TStruct (Some "Broken"%string) [].

Definition broken_methods (name : string) : method_set :=
  if String.eqb name "Broken"
  then mkMethods (Some (ByValue, fun _ => ([], Some (ErrOther "broken")))) None
  else no_methods.

(** [type hidden struct { A string; b int16 }]: a struct with an
    unexported field. *)
Definition hidden : type :=
  TStruct (Some "hidden"%string) [("A"%string, string_t); ("b"%string, int16_t)].

(** * Vocabulary of the properties *)

(** ** Varints *)

(** The bytes [writeVarint(v)] sends to an empty [bytes.Buffer]. *)
Definition varint_bytes (v : Z) : result (list byte) :=
  match writeVarint v (NewEncoder ([] : Buffer)) with
  | Normal err e => Normal err (w e)
  | Panicked p => Panicked p
  end.

Definition decode_varint (b : list byte) : Z * option error :=
  fst (ReadUvarint (NewReader b)).

(** ** Scalars *)

(** The scalar [binary.Read] is called with: [*bool] reads a byte, [*int]
    an int64, [*uint] a uint64. *)
Definition wire_scalar (s : scalar) : scalar :=
  match s with
  | Bool => Uint8
  | Int => Int64
  | Uint => Uint64
  | _ => s
  end.

(** The number a byte sequence denotes least-significant byte first:
    [b0 + 256 b1 + 256^2 b2 + ...]. *)
Fixpoint little_endian (bs : list byte) : Z :=
  match bs with
  | [] => 0
  | b :: bs' => b + 256 * little_endian bs'
  end.

(** An unsigned number of [bits] bits read in two's complement. *)
Definition twos_complement (bits : Z) (u : Z) : Z :=
  if u <? 2 ^ (bits - 1) then u else u - 2 ^ bits.

(** The value the wire grammar gives the bytes [bs] of a fixed-width
    scalar of type [s]: a boolean is true unless its byte is zero, an
    unsigned integer is the little-endian number, a signed integer is that
    number in two's complement at the width of the type (64 bits for
    [int]), a float is its bit pattern, a complex number is two
    consecutive floats.  Written from the grammar, not from
    [binary.Read]. *)
Definition denoted (s : scalar) (bs : list byte) : data :=
  match s with
  | Bool => DBool (negb (little_endian bs =? 0))
  | Int8 => DNum (twos_complement 8 (little_endian bs))
  | Int16 => DNum (twos_complement 16 (little_endian bs))
  | Int32 => DNum (twos_complement 32 (little_endian bs))
  | Int | Int64 => DNum (twos_complement 64 (little_endian bs))
  | Uint | Uint8 | Uint16 | Uint32 | Uint64 | Float32 | Float64 =>
      DNum (little_endian bs)
  | Complex64 =>
      DCplx (little_endian (firstn 4 bs)) (little_endian (skipn 4 bs))
  | Complex128 =>
      DCplx (little_endian (firstn 8 bs)) (little_endian (skipn 8 bs))
  end.

(** The contents of a scalar variable: a bool, an integer in the range of
    its type, or bit patterns of the width of a float. *)
Definition in_range (s : scalar) (d : data) : bool :=
  let within lo hi z := (lo <=? z) && (z <? hi) in
  match s, d with
  | Bool, DBool _ => true
  | Int8, DNum z => within (- 2 ^ 7) (2 ^ 7) z
  | Int16, DNum z => within (- 2 ^ 15) (2 ^ 15) z
  | Int32, DNum z => within (- 2 ^ 31) (2 ^ 31) z
  | (Int | Int64), DNum z => within (- 2 ^ 63) (2 ^ 63) z
  | Uint8, DNum z => within 0 (2 ^ 8) z
  | Uint16, DNum z => within 0 (2 ^ 16) z
  | (Uint32 | Float32), DNum z => within 0 (2 ^ 32) z
  | (Uint | Uint64 | Float64), DNum z => within 0 (2 ^ 64) z
  | Complex64, DCplx re im => within 0 (2 ^ 32) re && within 0 (2 ^ 32) im
  | Complex128, DCplx re im => within 0 (2 ^ 64) re && within 0 (2 ^ 64) im
  | _, _ => false
  end.

(** The keys of a map: each equal to itself (no NaN) and to no other. *)
Fixpoint distinct_keys (kt : type) (ks : list data) : bool :=
  match ks with
  | [] => true
  | k :: ks' =>
      key_eq kt k k && forallb (fun k' => negb (key_eq kt k k')) ks'
      && distinct_keys kt ks'
  end.

(** What [Encode] hands to [binary.Write] for a scalar. *)
Definition encoded_scalar (s : scalar) (d : data) : list byte :=
  match s with
  | Bool => scalar_bytes DefaultEndian Uint8 (DNum (if truth d then 1 else 0))
  | Int | Uint => scalar_bytes DefaultEndian Int64 (DNum (int64 (num d)))
  | _ => scalar_bytes DefaultEndian s d
  end.

(** ** The reader when the whole input fits the buffer *)

(** The bytes a reader has yet to deliver. *)
Definition avail (r : Reader) : list byte := buffered r ++ source r.

(** Either nothing has been read yet or the first refill has taken the
    whole source; bufio never has to go back to the source for more. *)
Definition ready (r : Reader) : Prop :=
  (buffered r = [] \/ source r = []) /\ (length (avail r) <= defaultBufSize)%nat.

(** ** Encoder and decoder, step by step *)

Abbreviation encoder := (Encoder Buffer).

(** [act] leaves the scratch buffer at 8 bytes and appends to the sink
    some bytes that satisfy [P]. *)
Definition emits (act : encoder -> result encoder) (P : list byte -> Prop) : Prop :=
  forall e e', length (buf e) = 8%nat -> act e = Normal None e' ->
               length (buf e') = 8%nat /\ exists bs, w e' = w e ++ bs /\ P bs.

(** [dec] consumes exactly [bs] and returns [x] with a nil error. *)
Definition reads {A : Type} (dec : Decoder -> A * option error * Decoder)
  (x : A) (bs : list byte) : Prop :=
  forall rest r, ready r -> avail r = bs ++ rest ->
                 exists r', dec r = (x, None, r') /\ ready r' /\ avail r' = rest.

(** [dec] consumes exactly [bs] and leaves [x] in the target. *)
Definition decodes {A : Type} (dec : Decoder -> result (A * Decoder))
  (x : A) (bs : list byte) : Prop :=
  forall rest r, ready r -> avail r = bs ++ rest ->
                 exists r', dec r = Normal None (x, r') /\ ready r' /\ avail r' = rest.

(** The varint length and the bytes, as [Encode] writes them for strings,
    byte slices and custom encodings, read back by [ReadUvarint] and one
    [Read]. *)
Definition blob_read (p bs : list byte) : Prop :=
  forall rest r, ready r -> avail r = bs ++ rest ->
    exists r1 r', ReadUvarint r = (len p, None, r1) /\
                  readBlob (len p) r1 = Some (p, None, r') /\
                  ready r' /\ avail r' = rest.

(** The bytes of one map entry: the key, then the value. *)
Definition entry_bytes (PK PV : data -> list byte -> Prop)
  (kv : data * data) (bs : list byte) : Prop :=
  exists bk bv, bs = bk ++ bv /\ PK (fst kv) bk /\ PV (snd kv) bv.

(** ** Values that survive the round trip *)

Section Supported.

Variable methods : string -> method_set.

(** [supported t d]: the value [d] of type [t] is one that [Encode]
    writes when it is passed by value and that [Decode] reads back through
    a pointer to a zero variable of type [t]:
    - a defined type whose value-receiver [MarshalBinary] is undone by its
      [UnmarshalBinary];
    - a predeclared scalar or [string];
    - a slice, array or map of such values, the map keys distinct.
    Lengths are those of a Go value ([int]). *)
Fixpoint supported (t : type) (d : data) {struct t} : Prop :=
  match asBinaryMarshaler methods t, asBinaryUnmarshaler methods t with
  | Some m, Some u =>
      forall blob, m d = (blob, None) -> u (zero t) blob = (d, None)
  | Some _, None | None, Some _ => False
  | None, None =>
      match t with
      | TScalar None s => in_range s d = true
      | TString None => exists s, d = DStr s
      | TSlice _ e =>
          exists ds, d = DSeq ds /\ len ds < 2 ^ 63 /\ Forall (supported e) ds
      | TArray _ n e =>
          exists ds, d = DSeq ds /\ length ds = n /\ len ds < 2 ^ 63 /\
                     Forall (supported e) ds
      | TMap _ kt vt =>
          exists m, d = DMap m /\ len m < 2 ^ 63 /\
                    distinct_keys kt (map fst m) = true /\
                    Forall (fun kv => supported kt (fst kv) /\ supported vt (snd kv)) m
      | _ => False
      end
  end.

(** The fields of a struct reached through a pointer: a field that
    [Encode] visits holds a supported value, a field it skips (unexported
    or blank) holds the zero value. *)
Fixpoint supported_fields (fs : list (string * type)) (ds : list data) : Prop :=
  match fs, ds with
  | [], [] => True
  | (name, ft) :: fs', fd :: ds' =>
      (if CanSet true name && negb (String.eqb name "_")
       then supported ft fd else fd = zero ft)
      /\ supported_fields fs' ds'
  | _, _ => False
  end.

(** What [Marshal] and [Unmarshal] are given: a supported value and a
    pointer to a zero variable of its type, or a pointer to a struct with
    supported fields (or to a value whose pointer-receiver methods
    undo each other) and a pointer to a zero struct. *)
Definition supported_value (t : type) (d : data) : Prop :=
  match t with
  | TPtr e =>
      match asBinaryMarshaler methods t, asBinaryUnmarshaler methods e with
      | Some m, Some u =>
          forall blob, m d = (blob, None) -> u (zero e) blob = (deref d, None)
      | Some _, None | None, Some _ => False
      | None, None =>
          match e with
          | TStruct _ fs => exists ds, d = DPtr (DSeq ds) /\ supported_fields fs ds
          | _ => False
          end
      end
  | _ => supported t d
  end.

End Supported.

(** The target handed to [Unmarshal] and what it should hold afterwards. *)
Definition fresh_target (t : type) : type * data :=
  match t with
  | TPtr e => (t, DPtr (zero e))
  | _ => (TPtr t, DPtr (zero t))
  end.

Definition expected (t : type) (d : data) : data :=
  match t with
  | TPtr _ => DPtr (deref d)
  | _ => DPtr d
  end.

(** ** Sinks that fail, targets that start with a count *)

(** An [io.Writer] that records every [Write] it is asked for and fails
    it with [e], having written nothing. *)
Definition failing_sink (e : error) : Writer (list (list byte)) :=
  fun log p => (log ++ [p], (0, Some e)).

(** The targets for which [Decode] begins with [binary.ReadUvarint]:
    [*string], and behind the type switch every type with an
    [UnmarshalBinary] and every slice, array and map. *)
Definition reads_prefix (methods : string -> method_set) (t : type) : bool :=
  match t with
  | TString None => true
  | TScalar None _ => false
  | _ =>
      match asBinaryUnmarshaler methods t with
      | Some _ => true
      | None =>
          match t with
          | TSlice _ _ | TArray _ _ _ | TMap _ _ _ => true
          | _ => false
          end
      end
  end.

(** What [Decode] leaves in a scalar target when [binary.Read] fails: the
    [*bool], [*int] and [*uint] cases assign their zero [out] all the
    same, the sized cases leave the target alone. *)
Definition after_failed_read (s : scalar) (old : data) : data :=
  match s with
  | Bool => DBool false
  | Int | Uint => DNum 0
  | _ => old
  end.

(** [act], run on a sink that fails every [Write] with [e], either leaves
    the record of the sink as it was or adds one [Write] to it and returns
    [e]. *)
Definition one_write_at_most (e : error)
  (act : Encoder (list (list byte)) -> result (Encoder (list (list byte)))) : Prop :=
  forall enc,
    match act enc with
    | Panicked _ => True
    | Normal err enc' =>
        w enc' = w enc \/ exists p, w enc' = w enc ++ [p] /\ err = Some e
    end.

(** The reader [r'] is [r] with some bytes taken from its front. *)
Definition advanced (r r' : Reader) : Prop :=
  exists used, avail r = used ++ avail r'.

(** * Properties *)

(** ** Varints *)

(** C4 (defect of the code).  The five small boundary values are written
    in 1, 1, 2, 2 and 3 bytes and read back.  For 2^64-1 (the [int] -1
    after [uint64(v)]) [writeVarint] panics: its scratch buffer has 8
    bytes where the encoding needs [MaxVarintLen64] = 10.  With a 10-byte
    buffer [PutUvarint] yields the 10 bytes, which [ReadUvarint] reads
    back as 2^64-1. *)
Theorem varint_boundaries :
  (varint_bytes 0 = Normal None [0] /\ decode_varint [0] = (0, None)) /\
  (varint_bytes 127 = Normal None [127] /\ decode_varint [127] = (127, None)) /\
  (varint_bytes 128 = Normal None [128; 1] /\
   decode_varint [128; 1] = (128, None)) /\
  (varint_bytes 16383 = Normal None [255; 127] /\
   decode_varint [255; 127] = (16383, None)) /\
  (varint_bytes 16384 = Normal None [128; 128; 1] /\
   decode_varint [128; 128; 1] = (16384, None)) /\
  uint64 (-1) = 2 ^ 64 - 1 /\
  varint_bytes (-1) = Panicked IndexOutOfRange /\
  varint_bytes (2 ^ 56) = Panicked IndexOutOfRange /\
  PutUvarint (repeat 0 MaxVarintLen64) (2 ^ 64 - 1)
    = Some ([255; 255; 255; 255; 255; 255; 255; 255; 255; 1], 10) /\
  decode_varint [255; 255; 255; 255; 255; 255; 255; 255; 255; 1]
    = (2 ^ 64 - 1, None).
Proof. repeat split; vm_compute; reflexivity. Qed.

(** ** Structs *)

(** C7.  [Marshal(s0v)] for [s0v = &s0{"A", "B", 1}] is exactly
    [0x1 0x41 0x1 0x42 0x1 0x0]: the fields in declaration order, each
    string behind its varint length, the int16 as two little-endian
    bytes, and nothing else. *)
Theorem marshal_s0 : Marshal test_methods (TPtr s0) s0v = Normal None s0b.
Proof. reflexivity. Qed.

(** The remaining tests of the suite on the model: TestBinaryDecodeStruct,
    TestBinaryEncodeComplex and TestBinaryMarshalUnMarshaler. *)
Example test_decode_struct :
  Unmarshal test_methods s0b (TPtr s0) (DPtr (zero s0)) = Normal None s0v.
Proof. reflexivity. Qed.

Example test_encode_complex :
  Marshal test_methods (TPtr s1) s1v = Normal None svb /\
  Unmarshal test_methods svb (TPtr s1) (DPtr (zero s1)) = Normal None s1v.
Proof. split; vm_compute; reflexivity. Qed.

Example test_marshaler :
  Marshal test_methods (TPtr s2) (DPtr (DSeq [DSeq [DNum 19]]))
    = Normal None [1; 19].
Proof. reflexivity. Qed.

(** A struct passed by value, or held by value in a field, a slice or a
    map, is not addressable: [CanSet()] is false for each of its fields
    and [Encode] writes none of them, while [Decode], which always works
    through a pointer, expects them all. *)
Example struct_by_value :
  Marshal test_methods s0 (deref s0v) = Normal None [] /\
  Marshal test_methods (TPtr outer) (DPtr (DSeq [DSeq [DNum 1]; str "A"]))
    = Normal None [1; 65] /\
  Unmarshal test_methods [1; 65] (TPtr outer) (DPtr (zero outer))
    = Normal (Some EOF) (DPtr (DSeq [DSeq [DNum 16641]; DStr []])).
Proof. repeat split; reflexivity. Qed.

(** ** Defined types over scalars *)

(** C2 (defect of the code).  A value of a defined type over a scalar and
    without methods matches no case of the type switch of [Encode] and no
    kind of its [default:] branch: [Marshal(Foo(32))] is the
    unsupported-type error, where [Marshal(int64(32))] is the eight bytes
    TestMarshalUnMarshalTypeAliases expects. *)
Theorem marshal_named_scalar :
  (forall s d, Marshal test_methods (TScalar (Some "Foo"%string) s) d
               = Normal (Some (ErrUnsupported (TScalar (Some "Foo"%string) s))) []) /\
  Marshal test_methods Foo (DNum 32) = Normal (Some (ErrUnsupported Foo)) [] /\
  Marshal test_methods (TScalar None Int64) (DNum 32)
    = Normal None [32; 0; 0; 0; 0; 0; 0; 0].
Proof.
  split; [|split; reflexivity].
  intros s d. reflexivity.
Qed.

(** ** Custom marshalers *)

Section CustomEncoding.

Variable methods : string -> method_set.
Context {W : Type} {sink : Writer W}.

(** [Encode] on a value that implements [encoding.BinaryMarshaler]. *)
Lemma Encode_marshaler (t : type) (d : data) m :
  asBinaryMarshaler methods t = Some m ->
  Encode methods t d =
    let '(buf, err) := m d in
    match err with
    | Some e => Normal (Some e)
    | None => writeVarint (len buf) ;; writeShadowed buf
    end.
Proof.
  intros Hm. destruct t; cbn [Encode]; rewrite Hm; reflexivity.
Qed.

(** C8.  For a value that implements [encoding.BinaryMarshaler], [Encode]
    calls [MarshalBinary] before anything else.  When the method fails,
    [Encode] returns its error and leaves the sink as it found it, for
    every sink: no [Write] has happened, so no length prefix either.  When
    it succeeds, [Encode] writes the varint length; if that fails it
    stops there with the error, otherwise it hands the bytes to the sink
    in one more [Write] and returns nil, whatever that [Write] returned. *)
Theorem Encode_marshaler_failure (t : type) (d : data) m (e : Encoder W) :
  asBinaryMarshaler methods t = Some m ->
  (forall blob err, m d = (blob, Some err) ->
                    Encode methods t d e = Normal (Some err) e) /\
  (forall blob, m d = (blob, None) ->
                Encode methods t d e =
                  match writeVarint (len blob) e with
                  | Normal None e1 =>
                      Normal None (mkEncoder (fst (Write (w e1) blob)) (buf e1))
                  | r => r
                  end).
Proof.
  intros Hm. rewrite (Encode_marshaler t d m Hm).
  split; intros blob; intros; rewrite H; [reflexivity|].
  unfold andThen. destruct (writeVarint (len blob) e) as [[err|] e1|p];
    try reflexivity.
  unfold writeShadowed. destruct (Write (w e1) blob) as [w' [n err]].
  reflexivity.
Qed.

End CustomEncoding.

Lemma Encode_marshaler_failure_witness :
  asBinaryMarshaler broken_methods Broken
    = Some (fun _ => ([], Some (ErrOther "broken"))) /\
  Encode broken_methods Broken (DSeq []) (NewEncoder ([7] : Buffer))
    = Normal (Some (ErrOther "broken")) (NewEncoder ([7] : Buffer)).
Proof.
  split; [reflexivity|].
  apply (proj1 (Encode_marshaler_failure broken_methods Broken (DSeq [])
                  (fun _ => ([], Some (ErrOther "broken")))
                  (NewEncoder ([7] : Buffer)) eq_refl) [] (ErrOther "broken")).
  reflexivity.
Defined.

(** ** Decoding scalars *)

Section ScalarDecoding.

Variable methods : string -> method_set.

Lemma firstn_short {A : Type} (n : nat) (l : list A) :
  (length l <= n)%nat -> firstn n l = l.
Proof. intros; apply firstn_all2; assumption. Qed.

(** On a fresh reader over at least [n] bytes, [io.ReadFull] of [n]
    bytes, [0 < n < defaultBufSize], returns the first [n] of them. *)
Lemma ReadFull_fresh (n : nat) (b : list byte) :
  (0 < n < defaultBufSize)%nat -> (n <= length b)%nat ->
  ReadFull n (NewReader b)
    = (firstn n b, None,
       mkReader (skipn n (firstn defaultBufSize b)) (skipn defaultBufSize b)).
Proof.
  intros Hn Hb. unfold ReadFull.
  destruct n as [|n']; [lia|].
  cbn [ReadAtLeast]. unfold Read, NewReader. cbn [buffered source].
  destruct (Nat.leb_spec defaultBufSize (S n')); [lia|].
  destruct (firstn defaultBufSize b) as [|c chunk] eqn:Hc.
  - apply (f_equal (@length _)) in Hc. rewrite length_firstn in Hc.
    cbn [length] in Hc. unfold defaultBufSize in *. lia.
  - rewrite <- Hc.
    assert (Hf : firstn (S n') (firstn defaultBufSize b) = firstn (S n') b).
    { rewrite firstn_firstn. f_equal. lia. }
    rewrite Hf.
    assert (Hl : (S n' - length (firstn (S n') b) = 0)%nat).
    { rewrite length_firstn. lia. }
    rewrite Hl. destruct n'; cbn [ReadAtLeast]; rewrite app_nil_r; reflexivity.
Qed.

(** C10.  Decoding into a [*bool] reads one byte; 0 gives [false], every
    other byte gives [true], and no byte gives an error. *)
Theorem decode_bool (b : byte) (rest : list byte) (old : data) :
  Unmarshal methods (b :: rest) (TPtr (TScalar None Bool)) (DPtr old)
    = Normal None (DPtr (DBool (negb (b =? 0)))).
Proof.
  unfold Unmarshal, Decode, NewDecoder. cbn [DecodeAt deref].
  unfold binaryRead. cbn [sizeof].
  rewrite ReadFull_fresh by (unfold defaultBufSize; cbn [length]; lia).
  cbn [firstn scalar_value DefaultEndian PutUintN UintN GetUint num].
  rewrite Z.shiftl_0_l, Z.lor_0_r. reflexivity.
Qed.


Lemma sizeof_bounds (s : scalar) : (0 < sizeof s < defaultBufSize)%nat.
Proof. destruct s; unfold defaultBufSize; cbn; lia. Qed.

Lemma sizeof_wire (s : scalar) : sizeof (wire_scalar s) = sizeof s.
Proof. destruct s; reflexivity. Qed.

(** [Unmarshal] into a pointer to a predeclared scalar, on input that
    holds at least its bytes, in terms of [binary.Read]. *)
Lemma Unmarshal_scalar_bytes (s : scalar) (b : list byte) (old : data) :
  (sizeof s <= length b)%nat ->
  Unmarshal methods b (TPtr (TScalar None s)) (DPtr old)
    = Normal None (DPtr (scalar_value DefaultEndian s (firstn (sizeof s) b))).
Proof.
  intros Hb.
  unfold Unmarshal, Decode, NewDecoder. cbn [deref].
  pose proof (sizeof_bounds s) as Hs.
  assert (Hr : binaryRead DefaultEndian (wire_scalar s) (NewReader b)
               = (Some (scalar_value DefaultEndian (wire_scalar s) (firstn (sizeof s) b)), None,
                  mkReader (skipn (sizeof s) (firstn defaultBufSize b))
                           (skipn defaultBufSize b))).
  { unfold binaryRead. rewrite sizeof_wire, ReadFull_fresh by assumption.
    reflexivity. }
  destruct s; cbn [DecodeAt wire_scalar] in *; rewrite Hr; try reflexivity.
  destruct b as [|c b']; cbn [sizeof length] in Hb; [lia|].
  cbn [sizeof firstn scalar_value DefaultEndian PutUintN UintN GetUint num nth].
  rewrite Z.shiftl_0_l, Z.lor_0_r. reflexivity.
Qed.

(** [binary.LittleEndian.UintN], which shifts and ors, against the
    little-endian number, which adds and multiplies. *)
Lemma lor_shiftl_byte (b x : Z) :
  0 <= b < 256 -> 0 <= x -> Z.lor b (Z.shiftl x 8) = b + 256 * x.
Proof.
  intros Hb Hx. rewrite Z.shiftl_mul_pow2 by lia.
  assert (Hd : Z.land b (x * 2 ^ 8) = 0).
  { apply Z.bits_inj'. intros k Hk. rewrite Z.land_spec, Z.bits_0.
    destruct (Z.ltb_spec k 8) as [Hlt|Hge].
    - rewrite Z.mul_pow2_bits_low by lia. apply andb_false_r.
    - rewrite <- (Z.mod_small b (2 ^ 8)) by (cbn; lia).
      rewrite Z.mod_pow2_bits_high by lia. reflexivity. }
  rewrite <- Z.lxor_lor by exact Hd.
  rewrite <- Z.add_nocarry_lxor by exact Hd.
  change (2 ^ 8) with 256. lia.
Qed.

Lemma GetUint_little_endian (bs : list byte) :
  Forall (fun x => 0 <= x < 256) bs ->
  GetUint bs = little_endian bs /\
  0 <= little_endian bs < 2 ^ (8 * Z.of_nat (length bs)).
Proof.
  induction 1 as [|b bs Hb _ [IH Hr]]; cbn [GetUint little_endian length].
  - split; [reflexivity|cbn; lia].
  - rewrite IH, lor_shiftl_byte by lia.
    split; [reflexivity|].
    rewrite Nat2Z.inj_succ, Z.mul_succ_r, Z.pow_add_r by lia.
    change (2 ^ 8) with 256. lia.
Qed.

Lemma signed_twos_complement (bits u : Z) :
  0 <= u < 2 ^ bits -> signed bits u = twos_complement bits u.
Proof.
  intros Hu. unfold signed, twos_complement, wrap.
  rewrite Z.mod_small by exact Hu. reflexivity.
Qed.

Lemma Forall_firstn_skipn {A : Type} (P : A -> Prop) (n : nat) (l : list A) :
  Forall P l -> Forall P (firstn n l) /\ Forall P (skipn n l).
Proof.
  intros H. rewrite <- (firstn_skipn n l) in H.
  apply Forall_app in H. exact H.
Qed.

(** On bytes, what [binary.Read] stores is what the wire grammar says. *)
Lemma scalar_value_denoted (s : scalar) (bs : list byte) :
  Forall (fun x => 0 <= x < 256) bs -> length bs = sizeof s ->
  scalar_value DefaultEndian s bs = denoted s bs.
Proof.
  intros HF Hl.
  destruct (GetUint_little_endian bs HF) as [HG Hr]. rewrite Hl in Hr.
  destruct s; cbn [scalar_value denoted DefaultEndian UintN sizeof] in *;
    try (rewrite HG; reflexivity);
    try (rewrite HG; f_equal; apply signed_twos_complement; exact Hr).
  - (* bool *)
    destruct bs as [|b0 [|b1 bs]]; cbn [length] in Hl; try discriminate.
    cbn [nth little_endian]. rewrite Z.mul_0_r, Z.add_0_r. reflexivity.
  - (* complex64 *)
    destruct (Forall_firstn_skipn _ 4 bs HF) as [H1 H2].
    rewrite (proj1 (GetUint_little_endian _ H1)),
            (proj1 (GetUint_little_endian _ H2)). reflexivity.
  - (* complex128 *)
    destruct (Forall_firstn_skipn _ 8 bs HF) as [H1 H2].
    rewrite (proj1 (GetUint_little_endian _ H1)),
            (proj1 (GetUint_little_endian _ H2)). reflexivity.
Qed.

(** C9 (defect of the code).  For a scalar type that declares no
    [UnmarshalBinary], predeclared or defined:
    - [Unmarshal] into a plain value fails with "can only Decode to pointer
      type" and leaves the value alone, whatever the input;
    - [Unmarshal] into a pointer to a predeclared scalar succeeds on every
      input that holds at least the bytes of the scalar, and stores the
      value those bytes denote, little-endian;
    - [Unmarshal] into a pointer to a defined type over a scalar, such as
      [type Foo int64], fails with "unsupported type" on every input and
      stores nothing: [*Foo] matches no case of the type switch of
      [Decode], and the [reflect] branch has no case for a scalar kind.
      The claim promises success there. *)
Theorem unmarshal_scalar_target (name : option string) (s : scalar)
  (b : list byte) (old : data) :
  UnmarshalBinary (methods_of methods (TScalar name s)) = None ->
  Unmarshal methods b (TScalar name s) old = Normal (Some ErrNotPointer) old /\
  (name = None ->
   Forall (fun x => 0 <= x < 256) b -> (sizeof s <= length b)%nat ->
   Unmarshal methods b (TPtr (TScalar None s)) (DPtr old)
     = Normal None (DPtr (denoted s (firstn (sizeof s) b)))) /\
  (forall n, name = Some n ->
   Unmarshal methods b (TPtr (TScalar (Some n) s)) (DPtr old)
     = Normal (Some (ErrUnsupported (TScalar (Some n) s))) (DPtr old)).
Proof.
  intros Hu. split; [|split].
  - unfold Unmarshal, Decode. rewrite Hu. reflexivity.
  - intros _ HF Hb. rewrite (Unmarshal_scalar_bytes s b old Hb).
    rewrite scalar_value_denoted; [reflexivity| |].
    + apply (Forall_firstn_skipn _ (sizeof s) b HF).
    + rewrite length_firstn. lia.
  - intros n ->. unfold Unmarshal, Decode. cbn [DecodeAt deref].
    unfold asBinaryUnmarshaler. rewrite Hu. reflexivity.
Qed.

End ScalarDecoding.

Lemma unmarshal_scalar_target_witness :
  (UnmarshalBinary (methods_of test_methods (TScalar None Uint32)) = None /\
   Unmarshal test_methods [1; 0; 0; 0] (TScalar None Uint32) (DNum 0)
     = Normal (Some ErrNotPointer) (DNum 0) /\
   Unmarshal test_methods [1; 0; 0; 0] (TPtr (TScalar None Uint32)) (DPtr (DNum 0))
     = Normal None (DPtr (DNum 1))) /\
  (UnmarshalBinary (methods_of test_methods Foo) = None /\
   Unmarshal test_methods [32; 0; 0; 0; 0; 0; 0; 0] Foo (DNum 0)
     = Normal (Some ErrNotPointer) (DNum 0) /\
   Unmarshal test_methods [32; 0; 0; 0; 0; 0; 0; 0] (TPtr Foo) (DPtr (DNum 0))
     = Normal (Some (ErrUnsupported Foo)) (DPtr (DNum 0))).
Proof.
  split.
  - destruct (unmarshal_scalar_target test_methods None Uint32 [1; 0; 0; 0]
                (DNum 0) eq_refl) as (Hv & Hp & _).
    split; [reflexivity|]. split; [exact Hv|].
    apply Hp; [reflexivity|repeat constructor; lia|cbn; lia].
  - destruct (unmarshal_scalar_target test_methods (Some "Foo"%string) Int64
                [32; 0; 0; 0; 0; 0; 0; 0] (DNum 0) eq_refl) as (Hv & _ & Hp).
    split; [reflexivity|]. split; [exact Hv|].
    exact (Hp "Foo"%string eq_refl).
Defined.

(** ** Fixed-length arrays *)

Section ArrayDecoding.

Variable methods : string -> method_set.

Lemma lor_uint64 (a b : Z) :
  0 <= a < 2 ^ 64 -> 0 <= Z.lor a (uint64 b) < 2 ^ 64.
Proof.
  intros Ha. unfold uint64, wrap.
  pose proof (Z.mod_pos_bound b (2 ^ 64) ltac:(lia)) as Hb.
  set (c := b mod 2 ^ 64) in *.
  assert (H0 : 0 <= Z.lor a c) by (apply Z.lor_nonneg; lia).
  split; [assumption|].
  destruct (Z.eq_dec (Z.lor a c) 0) as [E|E]; [rewrite E; lia|].
  apply Z.log2_lt_pow2; [lia|].
  rewrite Z.log2_lor by lia.
  apply Z.max_lub_lt.
  - destruct (Z.eq_dec a 0) as [->|]; [cbn; lia|apply Z.log2_lt_pow2; lia].
  - destruct (Z.eq_dec c 0) as [->|]; [cbn; lia|apply Z.log2_lt_pow2; lia].
Qed.

(** [binary.ReadUvarint] returns a uint64. *)
Lemma ReadUvarint_loop_range (n : nat) : forall i x s r,
  0 <= x < 2 ^ 64 ->
  0 <= fst (fst (ReadUvarint_loop n i x s r)) < 2 ^ 64.
Proof.
  induction n as [|n IH]; intros i x s r Hx; cbn [ReadUvarint_loop].
  - assumption.
  - destruct (ReadByte r) as [[b err] r'].
    destruct err as [e|]; [assumption|].
    destruct (b <? 128).
    + destruct ((i =? Z.of_nat MaxVarintLen64 - 1) && (1 <? b));
        cbn [fst]; [assumption|apply lor_uint64; assumption].
    + apply IH. apply lor_uint64; assumption.
Qed.

Lemma ReadUvarint_range (r : Decoder) :
  0 <= fst (fst (ReadUvarint r)) < 2 ^ 64.
Proof. apply ReadUvarint_loop_range. lia. Qed.

Lemma int64_neq (l : Z) (n : nat) :
  0 <= l < 2 ^ 64 -> l <> Z.of_nat n -> (int64 l =? Z.of_nat n) = false.
Proof.
  intros Hl Hn. apply Z.eqb_neq. unfold int64, signed, wrap.
  rewrite Z.mod_small by assumption.
  change (2 ^ (64 - 1)) with (2 ^ 63).
  destruct (Z.ltb_spec l (2 ^ 63)); lia.
Qed.

(** C6.  Decoding into a pointer to an array of [n] elements when the
    varint read from the source is a count [l] other than [n]: [Decode]
    returns the size-mismatch error right after the count, and the array
    is as it was, neither cut nor filled. *)
Theorem decode_array_length_mismatch
  (name : option string) (n : nat) (e : type) (old : data)
  (r r1 : Decoder) (l : Z) :
  asBinaryUnmarshaler methods (TArray name n e) = None ->
  ReadUvarint r = (l, None, r1) ->
  l <> Z.of_nat n ->
  Decode methods (TPtr (TArray name n e)) (DPtr old) r
    = Normal (Some (ErrSize l (Z.of_nat n))) (DPtr old, r1).
Proof.
  intros Hu Hr Hl.
  pose proof (ReadUvarint_range r) as Hrange. rewrite Hr in Hrange.
  cbn [fst] in Hrange.
  unfold Decode. cbn [DecodeAt deref]. rewrite Hu, Hr.
  rewrite (int64_neq l n Hrange Hl). reflexivity.
Qed.

End ArrayDecoding.

Lemma decode_array_length_mismatch_witness :
  asBinaryUnmarshaler test_methods (TArray None 2 (TScalar None Uint8)) = None /\
  ReadUvarint (NewDecoder [3; 1; 2; 3]) = (3, None, mkReader [1; 2; 3] []) /\
  3 <> Z.of_nat 2 /\
  Decode test_methods (TPtr (TArray None 2 (TScalar None Uint8)))
    (DPtr (DSeq [DNum 0; DNum 0])) (NewDecoder [3; 1; 2; 3])
    = Normal (Some (ErrSize 3 2)) (DPtr (DSeq [DNum 0; DNum 0]), mkReader [1; 2; 3] []).
Proof.
  split; [reflexivity|]. split; [reflexivity|]. split; [cbn; lia|].
  apply (decode_array_length_mismatch test_methods None 2 (TScalar None Uint8)
           (DSeq [DNum 0; DNum 0]) (NewDecoder [3; 1; 2; 3])
           (mkReader [1; 2; 3] []) 3).
  - reflexivity.
  - reflexivity.
  - cbn; lia.
Defined.

(** ** Short reads *)

(** C5 (defect of the code).  [Decode] into a [*string] fills its buffer
    with one [d.r.Read(buf)] and drops the count.  With the prefix 2 and
    one byte left in the source, [Read] returns 1 and a nil error:
    [Decode] succeeds and the target is that byte followed by the zero
    [make] left in the buffer.  Only when nothing at all is left does
    [Read] return [io.EOF], and the target is set to the zeros even then. *)
Theorem decode_string_short_read :
  Unmarshal test_methods [2; 65] (TPtr string_t) (DPtr (str "old"))
    = Normal None (DPtr (DStr [65; 0])) /\
  Unmarshal test_methods [2] (TPtr string_t) (DPtr (str "old"))
    = Normal (Some EOF) (DPtr (DStr [0; 0])) /\
  Unmarshal test_methods [2; 65; 66] (TPtr string_t) (DPtr (str "old"))
    = Normal None (DPtr (str "AB")).
Proof. repeat split; reflexivity. Qed.

(** C3 (defect of the code).  [Decode] into a target that implements
    [encoding.BinaryUnmarshaler] overwrites the error of [d.r.Read(buf)]
    with the result of [UnmarshalBinary(buf)].  With the prefix 1 and an
    exhausted source, [s2.UnmarshalBinary] receives the one-byte buffer of
    zeros [make] allocated and accepts it: [Decode] returns nil.  With the
    prefix 2 and one byte left the method receives that byte and a zero. *)
Theorem decode_unmarshaler_short_read :
  Unmarshal test_methods [1] (TPtr s2) (DPtr (zero s2))
    = Normal None (DPtr (DSeq [DSeq [DNum 0]])) /\
  Unmarshal test_methods [2; 19] (TPtr s2) (DPtr (zero s2))
    = Normal (Some (ErrOther "expected data to be length 1")) (DPtr (zero s2)) /\
  Unmarshal test_methods [1; 19] (TPtr s2) (DPtr (zero s2))
    = Normal None (DPtr (DSeq [DSeq [DNum 19]])).
Proof. repeat split; reflexivity. Qed.

(** ** Round trip *)

(** *** Little-endian integers *)

Lemma length_PutUint (n : nat) : forall v, length (PutUint n v) = n.
Proof. induction n as [|n IH]; intros v; cbn [PutUint length]; auto. Qed.

Lemma GetUint_PutUint (n : nat) : forall v,
  GetUint (PutUint n v) = v mod 2 ^ (8 * Z.of_nat n).
Proof.
  induction n as [|n IH]; intros v; cbn [PutUint GetUint].
  - change (8 * Z.of_nat 0) with 0. rewrite Z.pow_0_r, Z.mod_1_r. reflexivity.
  - rewrite IH. unfold toByte, wrap.
    replace (8 * Z.of_nat (S n)) with (8 * Z.of_nat n + 8) by lia.
    apply Z.bits_inj'. intros k Hk.
    rewrite Z.lor_spec.
    destruct (Z.ltb_spec k 8) as [Hlt|Hge].
    + rewrite Z.mod_pow2_bits_low by lia.
      rewrite Z.shiftl_spec_low by lia.
      rewrite Z.mod_pow2_bits_low by lia.
      apply orb_false_r.
    + rewrite Z.mod_pow2_bits_high by lia.
      rewrite Z.shiftl_spec by lia. cbn [orb].
      destruct (Z.ltb_spec k (8 * Z.of_nat n + 8)) as [Hlt|Hge'].
      * rewrite !Z.mod_pow2_bits_low by lia.
        rewrite Z.shiftr_spec by lia. f_equal. lia.
      * rewrite !Z.mod_pow2_bits_high by lia. reflexivity.
Qed.

Lemma signed_wrap (bits v : Z) :
  0 < bits -> - 2 ^ (bits - 1) <= v < 2 ^ (bits - 1) ->
  signed bits (v mod 2 ^ bits) = v.
Proof.
  intros Hb Hv. unfold signed, wrap. rewrite Z.mod_mod by lia.
  assert (Hp : 2 ^ bits = 2 * 2 ^ (bits - 1)).
  { replace bits with (Z.succ (bits - 1)) at 1 by lia.
    apply Z.pow_succ_r. lia. }
  destruct (Z_lt_le_dec v 0) as [Hneg|Hpos].
  - assert (Hm : v mod 2 ^ bits = v + 2 ^ bits).
    { symmetry. apply Z.mod_unique with (q := -1); lia. }
    rewrite Hm. destruct (Z.ltb_spec (v + 2 ^ bits) (2 ^ (bits - 1))); lia.
  - rewrite Z.mod_small by lia.
    destruct (Z.ltb_spec v (2 ^ (bits - 1))); lia.
Qed.

Lemma wrap_signed (bits v : Z) :
  0 < bits -> wrap bits (signed bits v) = wrap bits v.
Proof.
  intros Hb. unfold signed, wrap.
  destruct (v mod 2 ^ bits <? 2 ^ (bits - 1)).
  - apply Z.mod_mod. lia.
  - rewrite <- (Z.mod_mod v (2 ^ bits)) at 2 by lia.
    rewrite <- Zminus_mod_idemp_r, Z.mod_same, Z.sub_0_r by lia.
    reflexivity.
Qed.

(** *** Varints *)

Lemma PutUvarint_length (buf : list byte) : forall x buf' n,
  PutUvarint buf x = Some (buf', n) ->
  length buf' = length buf /\ 1 <= n <= Z.of_nat (length buf).
Proof.
  induction buf as [|old rest IH]; intros x buf' n H; cbn [PutUvarint] in H.
  - discriminate.
  - destruct (128 <=? x).
    + destruct (PutUvarint rest (Z.shiftr x 7)) as [[rest' n']|] eqn:E;
        [|discriminate].
      inversion H; subst. destruct (IH _ _ _ E) as [Hl Hn].
      cbn [length]. split; lia.
    + inversion H; subst. cbn [length]. split; lia.
Qed.

(** The facts about one byte that the varint loop relies on, checked on
    all 256 bytes. *)
Lemma continuation_byte (b : Z) :
  0 <= b < 256 ->
  (Z.lor b 128 <? 128) = false /\ Z.land (Z.lor b 128) 127 = b mod 128.
Proof.
  intros Hb.
  assert (H : forallb (fun n => let b := Z.of_nat n in
                         negb (Z.lor b 128 <? 128) &&
                         (Z.land (Z.lor b 128) 127 =? b mod 128))
                      (seq 0 256) = true) by (vm_compute; reflexivity).
  rewrite forallb_forall in H.
  specialize (H (Z.to_nat b)). rewrite Z2Nat.id in H by lia.
  specialize (H ltac:(apply in_seq; lia)). cbv zeta in H.
  apply andb_true_iff in H. destruct H as [H1 H2].
  apply negb_true_iff in H1. apply Z.eqb_eq in H2. auto.
Qed.

Lemma split_low7 (x : Z) :
  Z.lor (x mod 128) (Z.shiftl (Z.shiftr x 7) 7) = x.
Proof.
  apply Z.bits_inj'. intros k Hk. rewrite Z.lor_spec.
  change 128 with (2 ^ 7).
  destruct (Z.ltb_spec k 7).
  - rewrite Z.mod_pow2_bits_low, Z.shiftl_spec_low by lia. apply orb_false_r.
  - rewrite Z.mod_pow2_bits_high, Z.shiftl_spec, Z.shiftr_spec by lia.
    cbn [orb]. f_equal. lia.
Qed.

Lemma uint64_small (v s : Z) :
  0 <= v < 128 -> 0 <= s <= 56 -> uint64 (Z.shiftl v s) = Z.shiftl v s.
Proof.
  intros Hv Hs. unfold uint64, wrap. apply Z.mod_small.
  rewrite Z.shiftl_mul_pow2 by lia.
  assert (0 < 2 ^ s) by (apply Z.pow_pos_nonneg; lia).
  assert (2 ^ s <= 2 ^ 56) by (apply Z.pow_le_mono_r; lia).
  split; [nia|].
  apply Z.lt_le_trans with (128 * 2 ^ 56); [nia|]. cbn. lia.
Qed.

(** *** The reader when the whole input fits the buffer *)


Lemma ready_NewReader (b : list byte) :
  (length b <= defaultBufSize)%nat -> ready (NewReader b).
Proof. intros H. split; [left; reflexivity|exact H]. Qed.

Lemma ready_buffered (l : list byte) :
  (length l <= defaultBufSize)%nat -> ready (mkReader l []).
Proof.
  intros H. split; [right; reflexivity|].
  unfold avail; cbn [buffered source]. rewrite app_nil_r. exact H.
Qed.

Lemma skipn_short {A : Type} (n : nat) (l : list A) :
  (length l <= n)%nat -> skipn n l = [].
Proof. intros; apply skipn_all2; assumption. Qed.

Lemma ReadByte_ready (r : Reader) (c : byte) (rest : list byte) :
  ready r -> avail r = c :: rest ->
  ReadByte r = (c, None, mkReader rest []) /\ ready (mkReader rest []).
Proof.
  intros [Hs Hl] Ha. unfold ReadByte, avail in *.
  assert (Hrest : (length rest <= defaultBufSize)%nat).
  { rewrite Ha in Hl. cbn [length] in Hl. lia. }
  split; [|apply ready_buffered; exact Hrest].
  destruct (buffered r) as [|c' b'] eqn:Eb.
  - cbn [app] in Ha. rewrite Ha in *.
    rewrite firstn_short, skipn_short by exact Hl. reflexivity.
  - destruct Hs as [Hs|Hs]; [discriminate|]. rewrite Hs in *.
    rewrite app_nil_r in Ha. inversion Ha; subst. reflexivity.
Qed.

Lemma Read_ready (n : nat) (r : Reader) (bs rest : list byte) :
  ready r -> avail r = bs ++ rest -> length bs = n ->
  exists r', Read n r = (bs, None, r') /\ ready r' /\ avail r' = rest.
Proof.
  intros Hr Ha Hn. destruct n as [|n'].
  - destruct bs; [|discriminate]. exists r. cbn [Read]. auto.
  - exists (mkReader rest []).
    destruct Hr as [Hs Hl]. unfold avail in *.
    assert (Hrest : (length rest <= defaultBufSize)%nat).
    { rewrite Ha, length_app in Hl. lia. }
    assert (Hbs : firstn (S n') (bs ++ rest) = bs).
    { rewrite <- Hn. rewrite firstn_app, Nat.sub_diag, firstn_all. cbn [firstn].
      apply app_nil_r. }
    assert (Hsk : skipn (S n') (bs ++ rest) = rest).
    { rewrite <- Hn. rewrite skipn_app, Nat.sub_diag, skipn_all. reflexivity. }
    split; [|split; [apply ready_buffered; exact Hrest|]].
    + unfold Read. destruct (buffered r) as [|c' b'] eqn:Eb.
      * cbn [app] in Ha. rewrite Ha in *.
        destruct (Nat.leb_spec defaultBufSize (S n')) as [Hbig|Hsmall].
        -- assert (Hnil : rest = []).
           { cbn [app] in Hl. rewrite length_app in Hl.
             destruct rest; [reflexivity|cbn [length] in Hl; lia]. }
           rewrite Hbs, Hsk. destruct bs; [discriminate|].
           rewrite Hnil. reflexivity.
        -- rewrite firstn_short, skipn_short by exact Hl.
           destruct (bs ++ rest) as [|c l] eqn:E.
           ++ destruct bs; discriminate.
           ++ rewrite Hbs, Hsk. reflexivity.
      * destruct Hs as [Hs|Hs]; [discriminate|]. rewrite Hs in *.
        rewrite app_nil_r in Ha. rewrite Ha, Hbs, Hsk. reflexivity.
    + cbn [buffered source]. apply app_nil_r.
Qed.

Lemma ReadFull_ready (n : nat) (r : Reader) (bs rest : list byte) :
  ready r -> avail r = bs ++ rest -> length bs = n ->
  exists r', ReadFull n r = (bs, None, r') /\ ready r' /\ avail r' = rest.
Proof.
  intros Hr Ha Hn. unfold ReadFull.
  destruct n as [|n'].
  - destruct bs; [|discriminate]. exists r. cbn [ReadAtLeast]. auto.
  - cbn [ReadAtLeast].
    destruct (Read_ready (S n') r bs rest Hr Ha Hn) as (r' & HR & Hr' & Ha').
    rewrite HR, Hn, Nat.sub_diag. exists r'.
    destruct n'; cbn [ReadAtLeast]; rewrite app_nil_r; auto.
Qed.

(** A [Read] of at least one byte that returns no error returns at least
    one byte, so the loop of [io.ReadAtLeast] never needs more iterations
    than bytes: any two sufficient bounds give the same result. *)
Lemma Read_progress (n : nat) (r : Reader) got r' :
  Read (S n) r = (got, None, r') -> (1 <= length got <= S n)%nat.
Proof.
  unfold Read. intros H.
  assert (Hf : forall c (l : list byte),
             (1 <= length (firstn (S n) (c :: l)) <= S n)%nat).
  { intros c l. rewrite length_firstn. cbn [length]. lia. }
  destruct (buffered r) as [|c chunk].
  - destruct (defaultBufSize <=? S n)%nat.
    + destruct (source r) as [|c l]; inversion H; subst. apply Hf.
    + destruct (firstn defaultBufSize (source r)) as [|c l];
        inversion H; subst. apply Hf.
  - inversion H; subst. apply Hf.
Qed.

Lemma ReadAtLeast_fuel (f1 : nat) : forall f2 need r,
  (need <= f1)%nat -> (need <= f2)%nat ->
  ReadAtLeast f1 need r = ReadAtLeast f2 need r.
Proof.
  induction f1 as [|f1 IH]; intros f2 need r H1 H2.
  - destruct need; [|lia]. destruct f2; reflexivity.
  - destruct need as [|n]; [destruct f2; reflexivity|].
    destruct f2 as [|f2]; [lia|]. cbn [ReadAtLeast].
    destruct (Read (S n) r) as [[got [e|]] r'] eqn:HR; [reflexivity|].
    pose proof (Read_progress _ _ _ _ HR) as Hp.
    rewrite (IH f2) by lia. reflexivity.
Qed.

(** A string longer than what the decoder has buffered comes back cut
    short and padded, with a nil error. *)
Example long_string_short_read :
  exists b,
    Marshal test_methods string_t (DStr (repeat 65 (Z.to_nat 5000)))
      = Normal None b /\
    len b = 5002 /\
    Unmarshal test_methods b (TPtr string_t) (DPtr (DStr []))
      = Normal None (DPtr (DStr (repeat 65 4094 ++ repeat 0 906))).
Proof. eexists. repeat split; vm_compute; reflexivity. Qed.

(** Reading back what [PutUvarint] wrote into a buffer of at most nine
    bytes: the loop of [ReadUvarint] entered at index [i] with the
    accumulator [x0]. *)
Lemma ReadUvarint_loop_PutUvarint (buf : list byte) : forall x buf' n,
  PutUvarint buf x = Some (buf', n) -> 0 <= x ->
  forall k i x0 rest r,
    (length buf <= k)%nat -> 0 <= i -> i + Z.of_nat (length buf) <= 9 ->
    ready r -> avail r = firstn (Z.to_nat n) buf' ++ rest ->
    exists r', ReadUvarint_loop k i x0 (7 * i) r
                 = (Z.lor x0 (Z.shiftl x (7 * i)), None, r')
               /\ ready r' /\ avail r' = rest.
Proof.
  induction buf as [|old tl IH]; intros x buf' n HP Hx k i x0 rest r Hk Hi Hlen Hr Ha;
    cbn [PutUvarint] in HP; [discriminate|].
  cbn [length] in Hk, Hlen.
  destruct k as [|k']; [lia|]. cbn [ReadUvarint_loop].
  destruct (Z.leb_spec 128 x) as [Hbig|Hsmall].
  - destruct (PutUvarint tl (Z.shiftr x 7)) as [[tl' n']|] eqn:E; [|discriminate].
    inversion HP; subst buf' n; clear HP.
    destruct (PutUvarint_length _ _ _ _ E) as [_ Hn'].
    replace (Z.to_nat (n' + 1)) with (S (Z.to_nat n')) in Ha by lia.
    cbn [firstn app] in Ha.
    destruct (ReadByte_ready r _ _ Hr Ha) as [HB Hr1]. rewrite HB.
    assert (Hb : 0 <= toByte x < 256)
      by (unfold toByte, wrap; apply Z.mod_pos_bound; lia).
    destruct (continuation_byte _ Hb) as [Hc1 Hc2]. rewrite Hc1, Hc2.
    assert (Hm : toByte x mod 128 = x mod 128).
    { unfold toByte, wrap. change (2 ^ 8) with (2 * 128).
      rewrite Z.mul_comm, Z.rem_mul_r by lia.
      rewrite Z.mul_comm, Z.mod_add by lia. apply Z.mod_mod. lia. }
    rewrite Hm.
    rewrite uint64_small by (try apply Z.mod_pos_bound; lia).
    replace (7 * i + 7) with (7 * (i + 1)) by lia.
    destruct (IH (Z.shiftr x 7) tl' n' E ltac:(apply Z.shiftr_nonneg; lia)
                 k' (i + 1) (Z.lor x0 (Z.shiftl (x mod 128) (7 * i))) rest
                 (mkReader (firstn (Z.to_nat n') tl' ++ rest) []))
      as (r' & HL & Hr' & Ha'); try lia; try assumption.
    { unfold avail; cbn [buffered source]. apply app_nil_r. }
    exists r'. split; [|auto]. rewrite HL. f_equal. f_equal.
    rewrite <- Z.lor_assoc. f_equal.
    replace (7 * (i + 1)) with (7 + 7 * i) by lia.
    rewrite <- Z.shiftl_shiftl by lia.
    rewrite <- Z.shiftl_lor. f_equal. apply split_low7.
  - inversion HP; subst buf' n; clear HP.
    cbn [Z.to_nat Pos.to_nat Pos.iter_op Nat.add firstn app] in Ha.
    destruct (ReadByte_ready r _ _ Hr Ha) as [HB Hr1]. rewrite HB.
    assert (Hb : toByte x = x) by (unfold toByte, wrap; apply Z.mod_small; lia).
    rewrite Hb.
    destruct (Z.ltb_spec x 128); [|lia].
    replace (i =? Z.of_nat MaxVarintLen64 - 1) with false
      by (symmetry; apply Z.eqb_neq; cbn; lia).
    cbn [andb]. rewrite uint64_small by lia.
    exists (mkReader rest []). split; [reflexivity|]. split; [assumption|].
    unfold avail; cbn [buffered source]. apply app_nil_r.
Qed.

Section RoundTrip.

Variable methods : string -> method_set.



(** *** Encoder and decoder, step by step *)

Lemma andThen_inv {S : Type} (a b : S -> result S) (s s' : S) :
  (a ;; b) s = Normal None s' ->
  exists s1, a s = Normal None s1 /\ b s1 = Normal None s'.
Proof.
  unfold andThen. destruct (a s) as [[err|] s1|p]; try discriminate.
  intros H. exists s1. auto.
Qed.

Lemma emits_weaken act (P Q : list byte -> Prop) :
  emits act P -> (forall bs, P bs -> Q bs) -> emits act Q.
Proof.
  intros H HPQ e e' Hl He. destruct (H e e' Hl He) as (Hl' & bs & Hw & HP).
  split; [assumption|]. exists bs. auto.
Qed.

Lemma emits_andThen a b (P Q : list byte -> Prop) :
  emits a P -> emits b Q ->
  emits (a ;; b) (fun bs => exists b1 b2, bs = b1 ++ b2 /\ P b1 /\ Q b2).
Proof.
  intros Ha Hb e e' Hl He.
  destruct (andThen_inv _ _ _ _ He) as (e1 & H1 & H2).
  destruct (Ha e e1 Hl H1) as (Hl1 & b1 & Hw1 & HP).
  destruct (Hb e1 e' Hl1 H2) as (Hl2 & b2 & Hw2 & HQ).
  split; [assumption|]. exists (b1 ++ b2). split.
  - rewrite Hw2, Hw1. symmetry. apply app_assoc.
  - exists b1, b2. auto.
Qed.

Lemma emits_skip (P : list byte -> Prop) : P [] -> emits (Normal None) P.
Proof.
  intros HP e e' Hl He. inversion He; subst. split; [assumption|].
  exists []. split; [symmetry; apply app_nil_r|assumption].
Qed.

Lemma emits_write (p : list byte) : emits (write p) (fun bs => bs = p).
Proof.
  intros e e' Hl He. unfold write, Write, Buffer_Writer in He.
  inversion He; subst. cbn [buf w]. split; [assumption|]. exists p. auto.
Qed.

Lemma emits_writeVarint (v : Z) :
  emits (writeVarint v) (reads ReadUvarint (uint64 v)).
Proof.
  intros e e' Hl He. unfold writeVarint in He.
  destruct (PutUvarint (buf e) (uint64 v)) as [[buf' n]|] eqn:HP; [|discriminate].
  destruct (PutUvarint_length _ _ _ _ HP) as [Hlen Hn].
  unfold write, Write, Buffer_Writer in He. cbn [buf w] in He.
  inversion He; subst e'. cbn [buf w].
  split; [congruence|]. eexists. split; [reflexivity|].
  intros rest r Hr Ha.
  assert (Hx : 0 <= uint64 v)
    by (unfold uint64, wrap; apply Z.mod_pos_bound; lia).
  destruct (ReadUvarint_loop_PutUvarint _ _ _ _ HP Hx MaxVarintLen64 0 0 rest r)
    as (r' & HL & Hr' & Ha'); try assumption.
  - rewrite Hl. unfold MaxVarintLen64. lia.
  - lia.
  - rewrite Hl. cbn. lia.
  - exists r'. unfold ReadUvarint. change (7 * 0) with 0 in HL.
    rewrite HL, Z.shiftl_0_r, Z.lor_0_l. auto.
Qed.

(** *** Scalars *)

Lemma signed_small (bits v : Z) :
  0 < bits -> - 2 ^ (bits - 1) <= v < 2 ^ (bits - 1) -> signed bits v = v.
Proof.
  intros Hb Hv. rewrite <- (signed_wrap bits v Hb Hv) at 2.
  unfold signed, wrap. rewrite Z.mod_mod by lia. reflexivity.
Qed.

Lemma binaryRead_ready (s : scalar) (bs rest : list byte) (r : Decoder) :
  ready r -> avail r = bs ++ rest -> length bs = sizeof s ->
  exists r', binaryRead DefaultEndian s r = (Some (scalar_value DefaultEndian s bs), None, r')
             /\ ready r' /\ avail r' = rest.
Proof.
  intros Hr Ha Hl.
  destruct (ReadFull_ready (sizeof s) r bs rest Hr Ha Hl) as (r' & HR & Hr' & Ha').
  exists r'. unfold binaryRead. rewrite HR. auto.
Qed.


Lemma Encode_scalar (s : scalar) (d : data) :
  Encode (W := Buffer) methods (TScalar None s) d = write (encoded_scalar s d).
Proof. destruct s; reflexivity. Qed.

Lemma length_encoded_scalar (s : scalar) (d : data) :
  in_range s d = true -> length (encoded_scalar s d) = sizeof s.
Proof.
  destruct s, d; cbn [in_range]; try discriminate; intros _;
    cbn [encoded_scalar scalar_bytes DefaultEndian PutUintN UintN sizeof];
    rewrite ?length_app, ?length_PutUint; reflexivity.
Qed.

Ltac split_range H :=
  repeat match goal with
         | H' : (_ && _) = true |- _ =>
             apply andb_true_iff in H'; destruct H' as [? ?]
         end;
  repeat match goal with
         | H : (_ <=? _) = true |- _ => apply Z.leb_le in H
         | H : (_ <? _) = true |- _ => apply Z.ltb_lt in H
         end.

Lemma unsigned_roundtrip (n : nat) (z : Z) :
  0 <= z < 2 ^ (8 * Z.of_nat n) -> GetUint (PutUint n z) = z.
Proof. intros H. rewrite GetUint_PutUint. apply Z.mod_small. exact H. Qed.

Lemma signed_roundtrip (n : nat) (z : Z) :
  (0 < n)%nat ->
  - 2 ^ (8 * Z.of_nat n - 1) <= z < 2 ^ (8 * Z.of_nat n - 1) ->
  signed (8 * Z.of_nat n) (GetUint (PutUint n z)) = z.
Proof.
  intros Hn H. rewrite GetUint_PutUint. apply signed_wrap; [lia|exact H].
Qed.

Lemma decoded_scalar (s : scalar) (d : data) :
  in_range s d = true ->
  match s with
  | Bool => DBool (negb (num (scalar_value DefaultEndian Uint8 (encoded_scalar s d)) =? 0))
  | Int => scalar_value DefaultEndian Int64 (encoded_scalar s d)
  | Uint => scalar_value DefaultEndian Uint64 (encoded_scalar s d)
  | _ => scalar_value DefaultEndian s (encoded_scalar s d)
  end = d.
Proof.
  destruct s, d; cbn [in_range]; try discriminate; intros H;
    cbv zeta in H; split_range H;
    cbn [encoded_scalar scalar_bytes scalar_value DefaultEndian PutUintN UintN
         sizeof num truth].
  - destruct b; reflexivity.
  - (* int *) f_equal. unfold int64. rewrite (signed_small 64 z) by (cbn; lia).
    apply (signed_roundtrip 8); cbn; lia.
  - (* uint *) f_equal. rewrite GetUint_PutUint.
    change (2 ^ (8 * Z.of_nat 8)) with (2 ^ 64).
    fold (wrap 64 (int64 z)). unfold int64. rewrite wrap_signed by lia.
    apply Z.mod_small. lia.
  - f_equal. apply (signed_roundtrip 1); cbn; lia.
  - f_equal. apply unsigned_roundtrip; cbn; lia.
  - f_equal. apply (signed_roundtrip 2); cbn; lia.
  - f_equal. apply unsigned_roundtrip; cbn; lia.
  - f_equal. apply (signed_roundtrip 4); cbn; lia.
  - f_equal. apply unsigned_roundtrip; cbn; lia.
  - f_equal. apply (signed_roundtrip 8); cbn; lia.
  - f_equal. apply unsigned_roundtrip; cbn; lia.
  - f_equal. apply unsigned_roundtrip; cbn; lia.
  - f_equal. apply unsigned_roundtrip; cbn; lia.
  - rewrite firstn_app, skipn_app, length_PutUint, Nat.sub_diag.
    rewrite (firstn_short 4 (PutUint 4 re)) by (rewrite length_PutUint; lia).
    rewrite (skipn_short 4 (PutUint 4 re)) by (rewrite length_PutUint; lia).
    cbn [firstn skipn app]. rewrite app_nil_r.
    f_equal; apply unsigned_roundtrip; cbn; lia.
  - rewrite firstn_app, skipn_app, length_PutUint, Nat.sub_diag.
    rewrite (firstn_short 8 (PutUint 8 re)) by (rewrite length_PutUint; lia).
    rewrite (skipn_short 8 (PutUint 8 re)) by (rewrite length_PutUint; lia).
    cbn [firstn skipn app]. rewrite app_nil_r.
    f_equal; apply unsigned_roundtrip; cbn; lia.
Qed.

Lemma decodes_scalar (s : scalar) (d : data) :
  in_range s d = true ->
  decodes (DecodeAt methods (TScalar None s) (zero (TScalar None s))) d
          (encoded_scalar s d).
Proof.
  intros Hin rest r Hr Ha.
  pose proof (decoded_scalar s d Hin) as Hd.
  pose proof (length_encoded_scalar s d Hin) as Hl.
  destruct s; cbn [DecodeAt];
    match goal with
    | |- context [binaryRead DefaultEndian ?s' r] =>
        destruct (binaryRead_ready s' _ _ r Hr Ha Hl) as (r' & HR & Hr' & Ha');
        rewrite HR; exists r'; rewrite Hd; auto
    end.
Qed.

Lemma roundtrip_scalar (s : scalar) (d : data) :
  in_range s d = true ->
  emits (Encode methods (TScalar None s) d)
        (decodes (DecodeAt methods (TScalar None s) (zero (TScalar None s))) d).
Proof.
  intros Hin. rewrite Encode_scalar.
  apply (emits_weaken _ _ _ (emits_write _)). intros bs ->.
  apply decodes_scalar. exact Hin.
Qed.

(** *** Length-prefixed blobs *)

Lemma len_small {A : Type} (l : list A) :
  (length l <= defaultBufSize)%nat -> uint64 (len l) = len l /\ len l < 2 ^ 63.
Proof.
  intros H. unfold len, uint64, wrap, defaultBufSize in *.
  assert (Z.of_nat (length l) <= 4096) by lia.
  assert (4096 < 2 ^ 63) by (cbn; lia).
  split; [apply Z.mod_small; cbn; lia|lia].
Qed.

Lemma readBlob_ready (p rest : list byte) (r : Decoder) :
  ready r -> avail r = p ++ rest ->
  exists r', readBlob (len p) r = Some (p, None, r') /\ ready r' /\ avail r' = rest.
Proof.
  intros Hr Ha.
  assert (Hp : (length p <= defaultBufSize)%nat).
  { destruct Hr as [_ Hl]. rewrite Ha, length_app in Hl. lia. }
  assert (Hlt : len p <= maxAlloc).
  { unfold len, maxAlloc, defaultBufSize in *.
    assert (4096 < 2 ^ 48) by (cbn; lia). lia. }
  unfold readBlob. destruct (Z.ltb_spec maxAlloc (len p)); [lia|].
  unfold len. rewrite Nat2Z.id.
  destruct (Read_ready (length p) r p rest Hr Ha eq_refl) as (r' & HR & Hr' & Ha').
  exists r'. rewrite HR, Nat.sub_diag. cbn [repeat]. rewrite app_nil_r. auto.
Qed.


Lemma emits_blob (p : list byte) :
  emits (writeVarint (len p) ;; write p) (blob_read p).
Proof.
  apply (emits_weaken _ _ _ (emits_andThen _ _ _ _ (emits_writeVarint _) (emits_write _))).
  intros bs (b1 & b2 & -> & Hv & ->) rest r Hr Ha.
  rewrite <- app_assoc in Ha.
  destruct (Hv _ _ Hr Ha) as (r1 & HV & Hr1 & Ha1).
  assert (Hp : (length p <= defaultBufSize)%nat).
  { destruct Hr1 as [_ Hl]. rewrite Ha1, length_app in Hl. lia. }
  destruct (len_small p Hp) as [Hu _]. rewrite Hu in HV.
  destruct (readBlob_ready p rest r1 Hr1 Ha1) as (r' & HB & Hr' & Ha').
  exists r1, r'. auto.
Qed.

Lemma roundtrip_string (s : list byte) :
  emits (Encode methods (TString None) (DStr s))
        (decodes (DecodeAt methods (TString None) (zero (TString None))) (DStr s)).
Proof.
  change (Encode methods (TString None) (DStr s))
    with (writeVarint (W := Buffer) (len s) ;; write s).
  apply (emits_weaken _ _ _ (emits_blob s)).
  intros bs Hb rest r Hr Ha.
  destruct (Hb rest r Hr Ha) as (r1 & r' & HV & HB & Hr' & Ha').
  exists r'. cbn [DecodeAt]. rewrite HV, HB. auto.
Qed.

(** *** Custom encodings *)

Lemma DecodeAt_unmarshaler (t : type) (d : data) u :
  asBinaryUnmarshaler methods t = Some u ->
  DecodeAt methods t d = decodeBinary u d.
Proof.
  intros Hu.
  destruct t as [[n|] s|[n|]| | | | |]; try (destruct s);
    cbn [DecodeAt]; try (rewrite Hu; reflexivity);
    cbv in Hu; discriminate.
Qed.

Lemma roundtrip_custom (te td : type) (d x : data) m u :
  asBinaryMarshaler methods te = Some m ->
  asBinaryUnmarshaler methods td = Some u ->
  (forall blob, m d = (blob, None) -> u (zero td) blob = (x, None)) ->
  emits (Encode methods te d) (decodes (DecodeAt methods td (zero td)) x).
Proof.
  intros Hm Hu Hlaw. rewrite (Encode_marshaler methods te d m Hm).
  rewrite (DecodeAt_unmarshaler td _ u Hu).
  destruct (m d) as [blob [err|]] eqn:Hmd.
  - intros e e' _ He. discriminate.
  - specialize (Hlaw blob eq_refl).
    apply (emits_weaken _ _ _ (emits_blob blob)).
    intros bs Hb rest r Hr Ha.
    destruct (Hb rest r Hr Ha) as (r1 & r' & HV & HB & Hr' & Ha').
    exists r'. unfold decodeBinary. rewrite HV, HB, Hlaw. auto.
Qed.

(** *** Sequences *)

Lemma emits_forEach {A : Type} (enc : A -> encoder -> result encoder)
  (P : A -> list byte -> Prop) (xs : list A) :
  Forall (fun x => emits (enc x) (P x)) xs ->
  emits (forEach enc xs) (fun bs => exists bss, bs = concat bss /\ Forall2 P xs bss).
Proof.
  induction 1 as [|x xs Hx _ IH]; cbn [forEach].
  - apply emits_skip. exists []. split; [reflexivity|constructor].
  - apply (emits_weaken _ _ _ (emits_andThen _ _ _ _ Hx IH)).
    intros bs (b1 & b2 & -> & HP & bss & -> & HF).
    exists (b1 :: bss). split; [reflexivity|constructor; assumption].
Qed.

Lemma decodes_decodeElems (dec : data -> Decoder -> result decoding) (z : data)
  (ds : list data) (bss : list (list byte)) :
  Forall2 (fun x bs => decodes (dec z) x bs) ds bss ->
  decodes (decodeElems dec (repeat z (length ds))) ds (concat bss).
Proof.
  induction 1 as [|x bs ds bss Hx _ IH]; intros rest r Hr Ha.
  - exists r. cbn. auto.
  - cbn [concat] in Ha. rewrite <- app_assoc in Ha.
    destruct (Hx _ _ Hr Ha) as (r1 & H1 & Hr1 & Ha1).
    destruct (IH _ _ Hr1 Ha1) as (r2 & H2 & Hr2 & Ha2).
    exists r2. cbn [length repeat decodeElems]. rewrite H1, H2. auto.
Qed.

Lemma int64_len {A : Type} (l : list A) :
  len l < 2 ^ 63 -> int64 (uint64 (len l)) = len l.
Proof.
  intros H. unfold len in *.
  assert (H2 : 2 ^ 63 < 2 ^ 64) by (cbn; lia).
  unfold uint64, wrap. rewrite Z.mod_small by lia.
  apply signed_small; [lia|]. change (2 ^ (64 - 1)) with (2 ^ 63).
  assert (0 < 2 ^ 63) by (cbn; lia). lia.
Qed.

(** The count and the elements, as the [reflect.Slice] and
    [reflect.Array] branches write and read them. *)
Lemma roundtrip_elems (enc : data -> encoder -> result encoder)
  (dec : data -> Decoder -> result decoding) (z : data) (ds : list data) :
  len ds < 2 ^ 63 ->
  Forall (fun x => emits (enc x) (decodes (dec z) x)) ds ->
  emits (writeVarint (len ds) ;; forEach enc ds)
        (fun bs => forall rest r, ready r -> avail r = bs ++ rest ->
           exists r1 r',
             ReadUvarint r = (uint64 (len ds), None, r1) /\
             decodeElems dec (repeat z (length ds)) r1 = Normal None (ds, r') /\
             ready r' /\ avail r' = rest).
Proof.
  intros Hlen HF.
  apply (emits_weaken _ _ _
           (emits_andThen _ _ _ _ (emits_writeVarint _) (emits_forEach _ _ _ HF))).
  intros bs (b1 & b2 & -> & Hv & bss & -> & HF2) rest r Hr Ha.
  rewrite <- app_assoc in Ha.
  destruct (Hv _ _ Hr Ha) as (r1 & HV & Hr1 & Ha1).
  destruct (decodes_decodeElems dec z ds bss HF2 _ _ Hr1 Ha1) as (r' & HD & Hr' & Ha').
  exists r1, r'. auto.
Qed.

(** *** Maps *)

Lemma distinct_keys_app (kt : type) (ks1 : list data) (k : data) (ks2 : list data) :
  distinct_keys kt (ks1 ++ k :: ks2) = true ->
  forallb (fun k' => negb (key_eq kt k' k)) ks1 = true /\ key_eq kt k k = true.
Proof.
  induction ks1 as [|k1 ks1 IH]; cbn [app distinct_keys forallb]; intros H.
  - apply andb_true_iff in H. destruct H as [H _].
    apply andb_true_iff in H. destruct H as [H _]. auto.
  - apply andb_true_iff in H. destruct H as [H Hrest].
    apply andb_true_iff in H. destruct H as [_ Hall].
    rewrite forallb_app in Hall. apply andb_true_iff in Hall.
    destruct Hall as [_ Hall]. cbn [forallb] in Hall.
    apply andb_true_iff in Hall. destruct Hall as [Hk _].
    destruct (IH Hrest) as [IH1 IH2]. rewrite Hk, IH1. auto.
Qed.

Lemma MapIndex_distinct (kt : type) (pre : list (data * data)) (k v : data)
  (post : list (data * data)) :
  distinct_keys kt (map fst (pre ++ (k, v) :: post)) = true ->
  MapIndex kt (pre ++ (k, v) :: post) k = Some v.
Proof.
  rewrite map_app. cbn [map fst]. intros H.
  destruct (distinct_keys_app _ _ _ _ H) as [Hpre Hk]. clear H.
  induction pre as [|[k1 v1] pre IH]; cbn [app MapIndex map fst forallb] in *.
  - rewrite Hk. reflexivity.
  - apply andb_true_iff in Hpre. destruct Hpre as [H1 Hpre].
    apply negb_true_iff in H1. rewrite H1. apply IH. exact Hpre.
Qed.

Lemma SetMapIndex_fresh (kt : type) (m : list (data * data)) (k v : data) :
  forallb (fun k' => negb (key_eq kt k' k)) (map fst m) = true ->
  SetMapIndex kt m k v = m ++ [(k, v)].
Proof.
  induction m as [|[k1 v1] m IH]; cbn [map fst forallb SetMapIndex app]; intros H.
  - reflexivity.
  - apply andb_true_iff in H. destruct H as [H1 H].
    apply negb_true_iff in H1. rewrite H1, IH by exact H. reflexivity.
Qed.


Lemma emits_entries (kt : type) (encK encV : data -> encoder -> result encoder)
  (PK PV : data -> list byte -> Prop) (m : list (data * data)) :
  distinct_keys kt (map fst m) = true ->
  forall rem pre, m = pre ++ rem ->
    Forall (fun kv => emits (encK (fst kv)) (PK (fst kv)) /\
                      emits (encV (snd kv)) (PV (snd kv))) rem ->
    emits (forEach (fun key =>
                      encK key ;;
                      match MapIndex kt m key with
                      | Some value => encV value
                      | None => fun _ => Panicked ZeroValue
                      end) (map fst rem))
          (fun bs => exists bss, bs = concat bss /\
                                 Forall2 (entry_bytes PK PV) rem bss).
Proof.
  intros Hd rem. induction rem as [|[k v] rem IH]; intros pre Hm HF;
    cbn [map fst forEach].
  - apply emits_skip. exists []. split; [reflexivity|constructor].
  - inversion HF as [|? ? [Hk Hv] HF']; subst. cbn [fst snd] in *.
    rewrite (MapIndex_distinct kt pre k v rem Hd).
    assert (IH' := IH (pre ++ [(k, v)])
                      ltac:(rewrite <- app_assoc; reflexivity) HF').
    apply (emits_weaken _ _ _
             (emits_andThen _ _ _ _ (emits_andThen _ _ _ _ Hk Hv) IH')).
    intros bs (b1 & b2 & -> & (bk & bv & -> & HPK & HPV) & bss & -> & HF2).
    exists ((bk ++ bv) :: bss). split; [reflexivity|].
    constructor; [|assumption]. exists bk, bv. auto.
Qed.

Lemma decodes_decodeEntries (kt vt : type)
  (decK decV : data -> Decoder -> result decoding) :
  forall rem bss pre,
    Forall2 (entry_bytes (decodes (decK (zero kt))) (decodes (decV (zero vt))))
            rem bss ->
    distinct_keys kt (map fst (pre ++ rem)) = true ->
    decodes (decodeEntries kt vt decK decV (length rem) pre) (pre ++ rem)
            (concat bss).
Proof.
  intros rem bss pre HF. revert pre.
  induction HF as [|[k v] bs rem bss (bk & bv & -> & Hk & Hv) _ IH];
    intros pre Hd rest r Hr Ha.
  - exists r. cbn [length decodeEntries]. rewrite app_nil_r. auto.
  - cbn [fst snd concat] in *. rewrite <- !app_assoc in Ha.
    destruct (Hk _ _ Hr Ha) as (r1 & H1 & Hr1 & Ha1).
    destruct (Hv _ _ Hr1 Ha1) as (r2 & H2 & Hr2 & Ha2).
    assert (Hfresh : SetMapIndex kt pre k v = pre ++ [(k, v)]).
    { apply SetMapIndex_fresh. rewrite map_app in Hd. cbn [map fst] in Hd.
      apply (distinct_keys_app _ _ _ _ Hd). }
    assert (Hd' : distinct_keys kt (map fst ((pre ++ [(k, v)]) ++ rem)) = true).
    { rewrite <- app_assoc. exact Hd. }
    destruct (IH _ Hd' _ _ Hr2 Ha2) as (r3 & H3 & Hr3 & Ha3).
    exists r3. cbn [length decodeEntries]. rewrite H1, H2, Hfresh, H3.
    rewrite <- app_assoc. auto.
Qed.

(** *** Values passed by value *)

Lemma supported_cases (t : type) (d : data) :
  supported methods t d ->
  (exists m u, asBinaryMarshaler methods t = Some m /\
               asBinaryUnmarshaler methods t = Some u /\
               forall blob, m d = (blob, None) -> u (zero t) blob = (d, None)) \/
  (asBinaryMarshaler methods t = None /\ asBinaryUnmarshaler methods t = None /\
   match t with
   | TScalar None s => in_range s d = true
   | TString None => exists s, d = DStr s
   | TSlice _ e =>
       exists ds, d = DSeq ds /\ len ds < 2 ^ 63 /\ Forall (supported methods e) ds
   | TArray _ n e =>
       exists ds, d = DSeq ds /\ length ds = n /\ len ds < 2 ^ 63 /\
                  Forall (supported methods e) ds
   | TMap _ kt vt =>
       exists m, d = DMap m /\ len m < 2 ^ 63 /\
                 distinct_keys kt (map fst m) = true /\
                 Forall (fun kv => supported methods kt (fst kv) /\ supported methods vt (snd kv)) m
   | _ => False
   end).
Proof.
  destruct t; cbn [supported];
    match goal with
    | |- match ?a with _ => _ end -> _ =>
        destruct a as [m|] eqn:Hm;
        match goal with
        | |- match ?b with _ => _ end -> _ => destruct b as [u|] eqn:Hu
        end
    end; intros H; try contradiction;
    try (left; exists m, u; repeat split; assumption);
    right; repeat split; assumption.
Qed.

Lemma supported_byte (x : data) :
  supported methods (TScalar None Uint8) x -> in_range Uint8 x = true.
Proof. intros H. exact H. Qed.

Lemma fast_path_bytes (ds : list data) :
  Forall (supported methods (TScalar None Uint8)) ds ->
  exists bss, map num ds = concat bss /\
              Forall2 (fun x bs =>
                         decodes (DecodeAt methods (TScalar None Uint8)
                                    (zero (TScalar None Uint8))) x bs) ds bss.
Proof.
  induction 1 as [|x ds Hx _ (bss & Hc & HF)].
  - exists []. split; [reflexivity|constructor].
  - apply supported_byte in Hx.
    exists ([num x] :: bss). cbn [map concat app]. split; [f_equal; exact Hc|].
    constructor; [|exact HF].
    pose proof (decodes_scalar Uint8 x Hx) as Hdec.
    destruct x; try discriminate. cbn [in_range] in Hx. cbv zeta in Hx.
    split_range Hx.
    cbn [encoded_scalar scalar_bytes DefaultEndian PutUintN UintN sizeof PutUint num] in *.
    unfold toByte, wrap in Hdec. rewrite Z.mod_small in Hdec by (cbn; lia).
    exact Hdec.
Qed.

Lemma Encode_slice (name : option string) (e : type) (ds : list data) :
  asBinaryMarshaler methods (TSlice name e) = None ->
  (e = TScalar None Uint8 /\
   Encode (W := Buffer) methods (TSlice name e) (DSeq ds)
     = writeVarint (len ds) ;; write (map num ds)) \/
  Encode (W := Buffer) methods (TSlice name e) (DSeq ds)
    = writeVarint (len ds) ;; forEach (Encode methods e) ds.
Proof.
  intros Hm.
  destruct name as [n|]; [right; cbn [Encode]; rewrite Hm; reflexivity|].
  destruct e as [[n|] s| | | | | |];
    try (right; cbn [Encode]; rewrite Hm; reflexivity).
  destruct s; try (right; cbn [Encode]; rewrite Hm; reflexivity).
  left. split; [reflexivity|]. cbn [Encode]. rewrite Hm. reflexivity.
Qed.

Lemma Z2Nat_len {A : Type} (l : list A) : Z.to_nat (len l) = length l.
Proof. unfold len. apply Nat2Z.id. Qed.

(** A supported value passed to [Encode] is read back by [Decode] through
    a pointer to a zero variable of its type. *)
Lemma roundtrip_supported (t : type) : forall d,
  supported methods t d ->
  emits (Encode methods t d) (decodes (DecodeAt methods t (zero t)) d).
Proof.
  induction t as [name s|name|name e IHe|name n e IHe|name kt IHk vt IHv|name fs|e IHe];
    intros d Hs;
    (destruct (supported_cases _ _ Hs) as [(m & u & Hm & Hu & Hlaw)|(Hm & Hu & H)];
     [exact (roundtrip_custom _ _ _ _ m u Hm Hu Hlaw)|]).
  - destruct name; [contradiction|]. apply roundtrip_scalar. exact H.
  - destruct name; [contradiction|]. destruct H as [s ->]. apply roundtrip_string.
  - (* slices *)
    destruct H as (ds & -> & Hlen & HF).
    assert (Hdec : forall bs,
               (forall rest r, ready r -> avail r = bs ++ rest ->
                  exists r1 r',
                    ReadUvarint r = (uint64 (len ds), None, r1) /\
                    decodeElems (DecodeAt methods e) (repeat (zero e) (length ds)) r1
                      = Normal None (ds, r') /\
                    ready r' /\ avail r' = rest) ->
               decodes (DecodeAt methods (TSlice name e) (zero (TSlice name e)))
                       (DSeq ds) bs).
    { intros bs Hb rest r Hr Ha.
      destruct (Hb rest r Hr Ha) as (r1 & r' & HV & HD & Hr' & Ha').
      exists r'. cbn [DecodeAt]. rewrite Hu, HV, (int64_len ds Hlen).
      destruct (Z.ltb_spec (len ds) 0); [unfold len in *; lia|].
      rewrite Z2Nat_len, HD. auto. }
    destruct (Encode_slice name e ds Hm) as [[-> ->]| ->].
    + apply (emits_weaken _ _ _
               (emits_andThen _ _ _ _ (emits_writeVarint _) (emits_write _))).
      intros bs (b1 & b2 & -> & Hv & ->). apply Hdec.
      intros rest r Hr Ha. rewrite <- app_assoc in Ha.
      destruct (Hv _ _ Hr Ha) as (r1 & HV & Hr1 & Ha1).
      destruct (fast_path_bytes ds HF) as (bss & Hc & HF2).
      rewrite Hc in Ha1.
      destruct (decodes_decodeElems _ _ ds bss HF2 _ _ Hr1 Ha1) as (r' & HD & Hr' & Ha').
      exists r1, r'. auto.
    + apply (emits_weaken _ _ _
               (roundtrip_elems _ (DecodeAt methods e) (zero e) ds Hlen
                  ltac:(eapply Forall_impl; [|exact HF]; intros x Hx; apply IHe; exact Hx))).
      exact Hdec.
  - (* arrays *)
    destruct H as (ds & -> & <- & Hlen & HF).
    replace (Encode methods (TArray name (length ds) e) (DSeq ds))
      with (writeVarint (W := Buffer) (len ds) ;; forEach (Encode methods e) ds)
      by (cbn [Encode]; rewrite Hm; reflexivity).
    apply (emits_weaken _ _ _
             (roundtrip_elems _ (DecodeAt methods e) (zero e) ds Hlen
                ltac:(eapply Forall_impl; [|exact HF]; intros x Hx; apply IHe; exact Hx))).
    intros bs Hb rest r Hr Ha.
    destruct (Hb rest r Hr Ha) as (r1 & r' & HV & HD & Hr' & Ha').
    exists r'. cbn [DecodeAt zero elems]. rewrite Hu, HV, (int64_len ds Hlen).
    fold (len ds). rewrite Z.eqb_refl. cbn [negb]. rewrite HD. auto.
  - (* maps *)
    destruct H as (m & -> & Hlen & Hd & HF).
    replace (Encode methods (TMap name kt vt) (DMap m))
      with (writeVarint (W := Buffer) (len m) ;;
            forEach (fun key =>
                       Encode methods kt key ;;
                       match MapIndex kt m key with
                       | Some value => Encode methods vt value
                       | None => fun _ => Panicked ZeroValue
                       end) (map fst m))
      by (cbn [Encode]; rewrite Hm; reflexivity).
    assert (HE := emits_entries kt (Encode methods kt) (Encode methods vt)
                    (decodes (DecodeAt methods kt (zero kt)))
                    (decodes (DecodeAt methods vt (zero vt)))
                    m Hd m [] eq_refl
                    ltac:(eapply Forall_impl; [|exact HF]; intros kv [Hk Hv];
                          split; [apply IHk|apply IHv]; assumption)).
    apply (emits_weaken _ _ _ (emits_andThen _ _ _ _ (emits_writeVarint _) HE)).
    intros bs (b1 & b2 & -> & Hv & bss & -> & HF2) rest r Hr Ha.
    rewrite <- app_assoc in Ha.
    destruct (Hv _ _ Hr Ha) as (r1 & HV & Hr1 & Ha1).
    destruct (decodes_decodeEntries kt vt _ _ m bss [] HF2 Hd _ _ Hr1 Ha1)
      as (r' & HD & Hr' & Ha').
    exists r'. cbn [DecodeAt]. rewrite Hu, HV, (int64_len m Hlen), Z2Nat_len, HD.
    auto.
  - contradiction.
  - contradiction.
Qed.

(** *** Structs reached through a pointer *)

Lemma roundtrip_fields (fs : list (string * type)) : forall ds,
  supported_fields methods fs ds ->
  emits (encodeFields (Encode methods) true fs ds)
        (decodes (decodeFields (DecodeAt methods) fs (map (fun f => zero (snd f)) fs))
                 ds).
Proof.
  induction fs as [|[name ft] fs IH]; intros [|fd ds] Hs;
    cbn [supported_fields] in Hs; try contradiction.
  - cbn [encodeFields]. apply emits_skip. intros rest r Hr Ha.
    exists r. cbn. auto.
  - destruct Hs as [Hf Hs]. cbn [encodeFields map snd].
    destruct (CanSet true name && negb (String.eqb name "_")) eqn:Hset.
    + apply (emits_weaken _ _ _
               (emits_andThen _ _ _ _ (roundtrip_supported ft fd Hf) (IH ds Hs))).
      intros bs (b1 & b2 & -> & H1 & H2) rest r Hr Ha.
      rewrite <- app_assoc in Ha.
      destruct (H1 _ _ Hr Ha) as (r1 & HD1 & Hr1 & Ha1).
      destruct (H2 _ _ Hr1 Ha1) as (r2 & HD2 & Hr2 & Ha2).
      exists r2. cbn [decodeFields]. rewrite Hset, HD1, HD2. auto.
    + apply (emits_weaken _ _ _
               (emits_andThen _ _ _ _ (emits_skip (fun bs => bs = []) eq_refl)
                  (IH ds Hs))).
      intros bs (b1 & b2 & -> & -> & H2) rest r Hr Ha.
      destruct (H2 _ _ Hr Ha) as (r2 & HD2 & Hr2 & Ha2).
      exists r2. cbn [decodeFields]. rewrite Hset, HD2, Hf. auto.
Qed.

Lemma roundtrip_value (t : type) (d : data) :
  supported_value methods t d ->
  emits (Encode methods t d)
        (decodes (DecodeAt methods
                    (match t with TPtr e => e | _ => t end)
                    (zero (match t with TPtr e => e | _ => t end)))
                 (match t with TPtr _ => deref d | _ => d end)).
Proof.
  destruct t as [name s|name|name e|name n e|name kt vt|name fs|e];
    try (apply roundtrip_supported).
  cbn [supported_value].
  destruct (asBinaryMarshaler methods (TPtr e)) as [m|] eqn:Hm;
    destruct (asBinaryUnmarshaler methods e) as [u|] eqn:Hu;
    intros H; try contradiction.
  - exact (roundtrip_custom _ _ _ _ m u Hm Hu H).
  - destruct e as [| | | | |name fs|]; try contradiction.
    destruct H as (ds & -> & Hs).
    replace (Encode methods (TPtr (TStruct name fs)) (DPtr (DSeq ds)))
      with (encodeFields (W := Buffer) (Encode methods) true fs ds)
      by (cbn [Encode]; rewrite Hm; reflexivity).
    apply (emits_weaken _ _ _ (roundtrip_fields fs ds Hs)).
    intros bs Hb rest r Hr Ha.
    destruct (Hb rest r Hr Ha) as (r' & HD & Hr' & Ha').
    exists r'. cbn [DecodeAt zero elems deref]. rewrite Hu, HD. auto.
Qed.

End RoundTrip.





(** * Further properties of binary.go *)

(** ** writeVarint *)

Lemma PutUvarint_fits (buf : list byte) : forall x,
  buf <> [] -> 0 <= x < 2 ^ (7 * Z.of_nat (length buf)) ->
  exists buf' n, PutUvarint buf x = Some (buf', n).
Proof.
  induction buf as [|old tl IH]; intros x Hne Hx; [congruence|].
  cbn [PutUvarint]. destruct (Z.leb_spec 128 x) as [Hbig|Hsmall].
  - destruct tl as [|b tl'].
    + cbn [length] in Hx. change (2 ^ (7 * Z.of_nat 1)) with 128 in Hx. lia.
    + destruct (IH (Z.shiftr x 7) ltac:(discriminate)) as (tl2 & n & HP).
      * split; [apply Z.shiftr_nonneg; lia|].
        rewrite Z.shiftr_div_pow2 by lia.
        apply Z.div_lt_upper_bound; [lia|].
        rewrite <- Z.pow_add_r by lia.
        replace (7 + 7 * Z.of_nat (length (b :: tl')))
          with (7 * Z.of_nat (length (old :: b :: tl')))
          by (cbn [length]; lia).
        lia.
      * rewrite HP. eauto.
  - eauto.
Qed.

Lemma PutUvarint_overflows (buf : list byte) : forall x,
  2 ^ (7 * Z.of_nat (length buf)) <= x -> PutUvarint buf x = None.
Proof.
  induction buf as [|old tl IH]; intros x Hx; [reflexivity|].
  cbn [PutUvarint].
  assert (Hp : 2 ^ (7 * Z.of_nat (length (old :: tl)))
               = 2 ^ 7 * 2 ^ (7 * Z.of_nat (length tl))).
  { rewrite <- Z.pow_add_r by lia. f_equal. cbn [length]. lia. }
  assert (Hpos : 0 < 2 ^ (7 * Z.of_nat (length tl)))
    by (apply Z.pow_pos_nonneg; lia).
  rewrite Hp in Hx. change (2 ^ 7) with 128 in Hx.
  destruct (Z.leb_spec 128 x) as [_|Hsmall]; [|nia].
  rewrite IH; [reflexivity|].
  rewrite Z.shiftr_div_pow2 by lia. change (2 ^ 7) with 128.
  apply Z.div_le_lower_bound; lia.
Qed.

(** X1.  Every length below 2^56 is written by [writeVarint] in one to
    eight bytes, and [binary.ReadUvarint] reads those bytes back as the
    same number. *)
Theorem writeVarint_roundtrip (v : Z) :
  0 <= v < 2 ^ 56 ->
  exists bs, varint_bytes v = Normal None bs /\
             (1 <= length bs <= 8)%nat /\
             decode_varint bs = (v, None).
Proof.
  intros Hv. unfold varint_bytes, writeVarint, NewEncoder. cbn [buf w].
  assert (Hu : uint64 v = v).
  { unfold uint64, wrap. apply Z.mod_small.
    assert (2 ^ 56 < 2 ^ 64) by (cbn; lia). lia. }
  rewrite Hu.
  destruct (PutUvarint_fits (repeat 0 8%nat) v ltac:(discriminate)
              ltac:(cbn [repeat length]; change (2 ^ (7 * Z.of_nat 8)) with (2 ^ 56); lia))
    as (buf' & n & HP).
  rewrite HP.
  destruct (PutUvarint_length _ _ _ _ HP) as [Hl Hn].
  cbn [repeat length] in Hl, Hn.
  unfold write, Write, Buffer_Writer. cbn [w buf app].
  eexists. split; [reflexivity|].
  assert (Hlen : length (firstn (Z.to_nat n) buf') = Z.to_nat n).
  { rewrite length_firstn. lia. }
  split; [lia|].
  destruct (ReadUvarint_loop_PutUvarint _ _ _ _ HP ltac:(lia) MaxVarintLen64 0 0 []
              (NewReader (firstn (Z.to_nat n) buf')))
    as (r' & HL & _ & _).
  - cbn [repeat length]. unfold MaxVarintLen64. lia.
  - lia.
  - cbn [repeat length]. lia.
  - apply ready_NewReader. rewrite Hlen. unfold defaultBufSize. lia.
  - unfold avail, NewReader. cbn [buffered source app]. symmetry. apply app_nil_r.
  - unfold decode_varint, ReadUvarint. change (7 * 0) with 0 in HL.
    rewrite HL, Z.shiftl_0_r, Z.lor_0_l. reflexivity.
Qed.

Lemma writeVarint_roundtrip_witness :
  0 <= 300 < 2 ^ 56 /\
  exists bs, varint_bytes 300 = Normal None bs /\
             (1 <= length bs <= 8)%nat /\
             decode_varint bs = (300, None).
Proof.
  split; [cbn; lia|]. apply (writeVarint_roundtrip 300). cbn; lia.
Defined.

(** X2.  For every [v] whose [uint64(v)] is 2^56 or more, in particular
    every negative [v], [writeVarint] panics in [binary.PutUvarint] and
    writes nothing: the scratch buffer of [NewEncoder] has 8 bytes. *)
Theorem writeVarint_panics (v : Z) :
  2 ^ 56 <= uint64 v ->
  varint_bytes v = Panicked IndexOutOfRange.
Proof.
  intros Hv. unfold varint_bytes, writeVarint, NewEncoder. cbn [buf w].
  rewrite PutUvarint_overflows; [reflexivity|].
  cbn [repeat length]. change (2 ^ (7 * Z.of_nat 8)) with (2 ^ 56). exact Hv.
Qed.

Lemma writeVarint_panics_witness :
  2 ^ 56 <= uint64 (-1) /\ varint_bytes (-1) = Panicked IndexOutOfRange.
Proof.
  split; [vm_compute; discriminate|].
  apply (writeVarint_panics (-1)). vm_compute; discriminate.
Defined.

(** ** Wire forms that coincide *)

Ltac split_range H :=
  repeat match goal with
         | H' : (_ && _) = true |- _ =>
             apply andb_true_iff in H'; destruct H' as [? ?]
         end;
  repeat match goal with
         | H : (_ <=? _) = true |- _ => apply Z.leb_le in H
         | H : (_ <? _) = true |- _ => apply Z.ltb_lt in H
         end.

Section WireForms.

Variable methods : string -> method_set.

(** X3.  A string and the byte slice with the same bytes are written
    alike: the [string] case and the [[]byte] fast path of [Encode] emit
    the same varint length and the same bytes. *)
Theorem string_and_bytes_alike (bs : list byte) :
  Marshal methods (TString None) (DStr bs)
    = Marshal methods (TSlice None (TScalar None Uint8)) (DSeq (map DNum bs)).
Proof.
  unfold Marshal. cbn [Encode asBinaryMarshaler methods_of type_name
                       MarshalBinary no_methods elems].
  assert (Hm : map num (map DNum bs) = bs).
  { rewrite map_map. cbn [num]. apply map_id. }
  assert (Hl : len (map DNum bs) = len bs).
  { unfold len. rewrite length_map. reflexivity. }
  rewrite Hm, Hl. reflexivity.
Qed.

Lemma forEach_bytes (ds : list data) :
  Forall (fun x => in_range Uint8 x = true) ds ->
  forall e : Encoder Buffer,
    forEach (Encode methods (TScalar None Uint8)) ds e
      = Normal None (mkEncoder (w e ++ map num ds) (buf e)).
Proof.
  induction 1 as [|x ds Hx _ IH]; intros e; cbn [forEach map].
  - rewrite app_nil_r. destruct e; reflexivity.
  - unfold andThen. rewrite Encode_scalar.
    destruct x; try discriminate. cbn [in_range] in Hx. cbv zeta in Hx.
    split_range Hx.
    cbn [encoded_scalar scalar_bytes DefaultEndian PutUintN sizeof PutUint num].
    unfold toByte, wrap. rewrite Z.mod_small by (cbn; lia).
    unfold write, Write, Buffer_Writer. cbn [w buf].
    rewrite IH. cbn [w buf]. rewrite <- app_assoc. reflexivity.
Qed.

(** X4.  The [[]byte] fast path writes what the general slice branch
    would: a slice of a defined type over [[]byte] without a marshaler,
    which goes through [reflect] and [Encode]s each byte on its own, gives
    the same bytes as the [[]byte] with the same contents. *)
Theorem bytes_fast_path_agrees (name : string) (ds : list data) :
  asBinaryMarshaler methods (TSlice (Some name) (TScalar None Uint8)) = None ->
  Forall (fun x => in_range Uint8 x = true) ds ->
  Marshal methods (TSlice (Some name) (TScalar None Uint8)) (DSeq ds)
    = Marshal methods (TSlice None (TScalar None Uint8)) (DSeq ds).
Proof.
  intros Hm HF. unfold Marshal.
  replace (Encode methods (TSlice (Some name) (TScalar None Uint8)) (DSeq ds))
    with (writeVarint (W := Buffer) (len ds) ;;
          forEach (Encode methods (TScalar None Uint8)) ds)
    by (cbn [Encode]; rewrite Hm; reflexivity).
  change (Encode methods (TSlice None (TScalar None Uint8)) (DSeq ds))
    with (writeVarint (W := Buffer) (len ds) ;; write (map num ds)).
  unfold andThen.
  match goal with
  | |- context [writeVarint ?v ?e] =>
      destruct (writeVarint v e) as [[err|] e1|p]; try reflexivity
  end.
  rewrite (forEach_bytes ds HF). reflexivity.
Qed.

Lemma PutUint_wrap (n : nat) : forall v,
  PutUint n (v mod 2 ^ (8 * Z.of_nat n)) = PutUint n v.
Proof.
  induction n as [|n IH]; intros v; cbn [PutUint]; [reflexivity|].
  assert (Hp : 2 ^ (8 * Z.of_nat (S n)) = 2 ^ 8 * 2 ^ (8 * Z.of_nat n)).
  { rewrite <- Z.pow_add_r by lia. f_equal. lia. }
  assert (Hpos : 0 < 2 ^ (8 * Z.of_nat n)) by (apply Z.pow_pos_nonneg; lia).
  rewrite Hp. f_equal.
  - unfold toByte, wrap. rewrite Z.rem_mul_r by lia.
    rewrite Z.mul_comm, Z.mod_add by lia. apply Z.mod_mod. lia.
  - rewrite <- (IH (Z.shiftr v 8)). f_equal.
    rewrite !Z.shiftr_div_pow2 by lia.
    rewrite Z.rem_mul_r by lia.
    rewrite Z.mul_comm, Z.div_add by lia.
    rewrite Z.div_small by (apply Z.mod_pos_bound; lia). reflexivity.
Qed.

(** X5.  An [int] and a [uint] are written as the [int64] and the
    [uint64] with the same value: the conversion [int64(cv)] that
    [Encode] applies, also to a [uint] above the int64 range, changes no
    byte. *)
Theorem native_ints_widened (z : Z) :
  Marshal methods (TScalar None Int) (DNum z)
    = Marshal methods (TScalar None Int64) (DNum z) /\
  Marshal methods (TScalar None Uint) (DNum z)
    = Marshal methods (TScalar None Uint64) (DNum z).
Proof.
  assert (H : PutUint 8 (int64 z) = PutUint 8 z).
  { rewrite <- (PutUint_wrap 8 (int64 z)), <- (PutUint_wrap 8 z).
    f_equal. change (2 ^ (8 * Z.of_nat 8)) with (2 ^ 64).
    apply (wrap_signed 64 z). lia. }
  unfold Marshal.
  split; rewrite !Encode_scalar;
    cbn [encoded_scalar scalar_bytes DefaultEndian PutUintN sizeof num];
    rewrite H; reflexivity.
Qed.

(** X6.  A predeclared scalar passed by value is always written, in
    exactly the number of bytes of its type (eight for [int] and [uint]),
    whatever its value. *)
Theorem scalar_width (s : scalar) (d : data) :
  exists bs, Marshal methods (TScalar None s) d = Normal None bs /\
             length bs = sizeof s.
Proof.
  unfold Marshal. rewrite Encode_scalar.
  unfold write, Write, Buffer_Writer, NewEncoder. cbn [w buf app].
  eexists. split; [reflexivity|].
  destruct s, d;
    cbn [encoded_scalar scalar_bytes DefaultEndian PutUintN sizeof];
    rewrite ?length_app, ?length_PutUint; reflexivity.
Qed.

(** X7.  A pointer to a predeclared scalar or to a string is not
    something [Encode] can write, although it is the only thing [Decode]
    can read into: the type switch lists the value types, and the
    [reflect] branch has no case for the kind behind the pointer. *)
Theorem marshal_pointer_to_scalar (s : scalar) (d : data) :
  Marshal methods (TPtr (TScalar None s)) d
    = Normal (Some (ErrUnsupported (TScalar None s))) [] /\
  Marshal methods (TPtr (TString None)) d
    = Normal (Some (ErrUnsupported (TString None))) [].
Proof. split; reflexivity. Qed.

End WireForms.

Lemma bytes_fast_path_agrees_witness :
  asBinaryMarshaler test_methods (TSlice (Some "blob"%string) (TScalar None Uint8))
    = None /\
  Forall (fun x => in_range Uint8 x = true) [DNum 7; DNum 255] /\
  Marshal test_methods (TSlice (Some "blob"%string) (TScalar None Uint8))
    (DSeq [DNum 7; DNum 255])
    = Marshal test_methods (TSlice None (TScalar None Uint8)) (DSeq [DNum 7; DNum 255]).
Proof.
  assert (HF : Forall (fun x => in_range Uint8 x = true) [DNum 7; DNum 255])
    by (repeat constructor).
  split; [reflexivity|]. split; [exact HF|].
  exact (bytes_fast_path_agrees test_methods "blob" [DNum 7; DNum 255] eq_refl HF).
Defined.

(** ** Streams *)

Section Streams.

Variable methods : string -> method_set.

Lemma roundtrip_Decode (t : type) (d : data) :
  supported_value methods t d ->
  emits (Encode methods t d)
        (decodes (Decode methods (fst (fresh_target t)) (snd (fresh_target t)))
                 (expected t d)).
Proof.
  intros Hs. apply (emits_weaken _ _ _ (roundtrip_value methods t d Hs)).
  intros bs Hb rest r Hr Ha.
  destruct (Hb rest r Hr Ha) as (r' & HD & Hr' & Ha').
  exists r'. split; [|auto].
  destruct t; cbn [fresh_target fst snd Decode deref expected] in *;
    rewrite HD; reflexivity.
Qed.

(** X8.  Values written one after the other through one [Encoder] are
    read back one after the other through one [Decoder]: each [Decode]
    takes exactly the bytes its [Encode] wrote and leaves the reader at
    the start of the next value (values as in the round trip, the stream
    within the decoder's buffer). *)
Theorem encode_decode_stream (t1 t2 : type) (d1 d2 : data) (e : Encoder Buffer) :
  supported_value methods t1 d1 ->
  supported_value methods t2 d2 ->
  (Encode methods t1 d1 ;; Encode methods t2 d2) (NewEncoder []) = Normal None e ->
  (length (w e) <= defaultBufSize)%nat ->
  exists r1 r2,
    Decode methods (fst (fresh_target t1)) (snd (fresh_target t1)) (NewDecoder (w e))
      = Normal None (expected t1 d1, r1) /\
    Decode methods (fst (fresh_target t2)) (snd (fresh_target t2)) r1
      = Normal None (expected t2 d2, r2) /\
    avail r2 = [].
Proof.
  intros H1 H2 He Hl.
  destruct (emits_andThen _ _ _ _ (roundtrip_Decode t1 d1 H1) (roundtrip_Decode t2 d2 H2)
              (NewEncoder ([] : Buffer)) e eq_refl He)
    as (_ & bs & Hw & b1 & b2 & -> & Hd1 & Hd2).
  cbn [NewEncoder w app] in Hw. rewrite Hw in *.
  destruct (Hd1 b2 (NewReader (b1 ++ b2)) (ready_NewReader _ Hl) eq_refl)
    as (r1 & HD1 & Hr1 & Ha1).
  destruct (Hd2 [] r1 Hr1 ltac:(rewrite app_nil_r; exact Ha1))
    as (r2 & HD2 & _ & Ha2).
  exists r1, r2. auto.
Qed.

(** X9.  [Unmarshal] reads one value and does not look at what follows
    it: bytes appended to the output of [Marshal] change neither the
    decoded value nor the nil error (values as in the round trip, the
    whole input within the decoder's buffer). *)
Theorem unmarshal_ignores_trailing (t : type) (d : data) (b extra : list byte) :
  supported_value methods t d ->
  Marshal methods t d = Normal None b ->
  (length (b ++ extra) <= defaultBufSize)%nat ->
  Unmarshal methods (b ++ extra) (fst (fresh_target t)) (snd (fresh_target t))
    = Normal None (expected t d).
Proof.
  intros Hs Hm Hl. unfold Marshal in Hm.
  match type of Hm with
  | match ?x with _ => _ end = _ => destruct x as [[err|] e|p] eqn:He
  end; try discriminate.
  injection Hm as Hwe. subst b.
  destruct (roundtrip_Decode t d Hs (NewEncoder ([] : Buffer)) e eq_refl He)
    as (_ & bs & Hw & Hdec).
  cbn [NewEncoder w app] in Hw. rewrite Hw in *.
  destruct (Hdec extra (NewReader (bs ++ extra)) (ready_NewReader _ Hl) eq_refl)
    as (r' & HD & _ & _).
  unfold Unmarshal, NewDecoder. rewrite HD. reflexivity.
Qed.

End Streams.

Lemma encode_decode_stream_witness :
  supported_value test_methods (TPtr s0) s0v /\
  supported_value test_methods string_t (str "x") /\
  (Encode test_methods (TPtr s0) s0v ;; Encode test_methods string_t (str "x"))
    (NewEncoder ([] : Buffer))
    = Normal None (mkEncoder (s0b ++ [1; 120]) [1; 0; 0; 0; 0; 0; 0; 0]) /\
  (length (s0b ++ [1; 120]%Z) <= defaultBufSize)%nat /\
  exists r1 r2,
    Decode test_methods (TPtr s0) (DPtr (zero s0)) (NewDecoder (s0b ++ [1; 120]))
      = Normal None (s0v, r1) /\
    Decode test_methods (TPtr string_t) (DPtr (DStr [])) r1
      = Normal None (DPtr (str "x"), r2) /\
    avail r2 = [].
Proof.
  assert (H1 : supported_value test_methods (TPtr s0) s0v).
  { vm_compute. eexists. split; [reflexivity|]. repeat split; eauto. }
  assert (H2 : supported_value test_methods string_t (str "x")).
  { vm_compute. eauto. }
  assert (Hl : (length (s0b ++ [1; 120]%Z) <= defaultBufSize)%nat)
    by (unfold defaultBufSize; cbn; lia).
  split; [exact H1|]. split; [exact H2|]. split; [reflexivity|]. split; [exact Hl|].
  exact (encode_decode_stream test_methods (TPtr s0) string_t s0v (str "x")
           (mkEncoder (s0b ++ [1; 120]) [1; 0; 0; 0; 0; 0; 0; 0])
           H1 H2 eq_refl Hl).
Defined.

Lemma unmarshal_ignores_trailing_witness :
  supported_value test_methods (TPtr s0) s0v /\
  Marshal test_methods (TPtr s0) s0v = Normal None s0b /\
  (length (s0b ++ [9; 9]%Z) <= defaultBufSize)%nat /\
  Unmarshal test_methods (s0b ++ [9; 9]) (TPtr s0) (DPtr (zero s0)) = Normal None s0v.
Proof.
  assert (H1 : supported_value test_methods (TPtr s0) s0v).
  { vm_compute. eexists. split; [reflexivity|]. repeat split; eauto. }
  assert (Hl : (length (s0b ++ [9; 9]%Z) <= defaultBufSize)%nat)
    by (unfold defaultBufSize; cbn; lia).
  split; [exact H1|]. split; [reflexivity|]. split; [exact Hl|].
  exact (unmarshal_ignores_trailing test_methods (TPtr s0) s0v s0b [9; 9]
           H1 eq_refl Hl).
Defined.

(** ** Input that ends too early *)

Section ShortInput.

Variable methods : string -> method_set.

Lemma ReadFull_short (n : nat) (b : list byte) :
  (0 < n < defaultBufSize)%nat -> (length b < n)%nat ->
  exists r', ReadFull n (NewReader b)
             = (b, Some (match b with [] => EOF | _ => ErrUnexpectedEOF end), r').
Proof.
  intros Hn Hb. unfold ReadFull.
  destruct n as [|n']; [lia|]. cbn [ReadAtLeast].
  unfold Read at 1, NewReader. cbn [buffered source].
  destruct (Nat.leb_spec defaultBufSize (S n')); [lia|].
  rewrite firstn_short by lia.
  destruct b as [|c b'].
  - eexists. reflexivity.
  - rewrite firstn_short by lia. rewrite !skipn_short by lia.
    destruct (S n' - length (c :: b'))%nat as [|k] eqn:Hk; [lia|].
    destruct n' as [|n'']; [cbn [length] in *; lia|].
    cbn [ReadAtLeast Read buffered source firstn].
    rewrite firstn_nil.
    destruct (defaultBufSize <=? S k)%nat; cbv beta iota zeta;
      rewrite app_nil_r; eexists; reflexivity.
Qed.

(** X10.  When the input holds fewer bytes than the scalar needs,
    [Unmarshal] into a pointer to a predeclared scalar fails: with
    [io.EOF] on empty input, with [io.ErrUnexpectedEOF] otherwise.  A
    [*bool], [*int] or [*uint] target is set to zero all the same (the case
    assigns its local [out] after the failed read); a sized target is
    left as it was. *)
Theorem unmarshal_scalar_short_input (s : scalar) (b : list byte) (old : data) :
  (length b < sizeof s)%nat ->
  Unmarshal methods b (TPtr (TScalar None s)) (DPtr old)
    = Normal (Some (match b with [] => EOF | _ => ErrUnexpectedEOF end))
             (DPtr (after_failed_read s old)).
Proof.
  intros Hb. unfold Unmarshal, Decode, NewDecoder. cbn [deref].
  assert (Hr : exists r',
             binaryRead DefaultEndian (wire_scalar s) (NewReader b)
             = (None, Some (match b with [] => EOF | _ => ErrUnexpectedEOF end), r')).
  { unfold binaryRead. rewrite sizeof_wire.
    destruct (ReadFull_short (sizeof s) b (sizeof_bounds s) Hb) as (r' & ->).
    exists r'. reflexivity. }
  destruct Hr as (r' & Hr).
  destruct s; cbn [DecodeAt wire_scalar after_failed_read] in *; rewrite Hr;
    reflexivity.
Qed.

Lemma ReadByte_exhausted (r : Reader) :
  avail r = [] -> ReadByte r = (0, Some EOF, r).
Proof.
  unfold avail, ReadByte. intros H. apply app_eq_nil in H. destruct H as [-> ->].
  reflexivity.
Qed.

(** The loop of [binary.ReadUvarint] on input that is nothing but
    continuation bytes. *)
Lemma ReadUvarint_loop_unterminated (bs : list byte) :
  Forall (fun b => 128 <= b) bs ->
  forall n i x s r, ready r -> avail r = bs -> 0 <= i ->
    exists x' r',
      ReadUvarint_loop n i x s r
      = (x', Some (if (length bs <? n)%nat
                   then if 0 <? i + Z.of_nat (length bs) then ErrUnexpectedEOF else EOF
                   else ErrOverflow), r').
Proof.
  induction 1 as [|b bs Hb _ IH]; intros n i x s r Hr Ha Hi;
    destruct n as [|n']; cbn [ReadUvarint_loop length].
  - eexists _, _. reflexivity.
  - rewrite (ReadByte_exhausted r Ha). rewrite Z.add_0_r.
    eexists _, _. reflexivity.
  - eexists _, _. reflexivity.
  - destruct (ReadByte_ready r b bs Hr Ha) as [HB Hr1]. rewrite HB.
    destruct (Z.ltb_spec b 128); [lia|].
    destruct (IH n' (i + 1) (Z.lor x (uint64 (Z.shiftl (Z.land b 127) s))) (s + 7)
                 (mkReader bs []) Hr1
                 ltac:(unfold avail; cbn [buffered source]; apply app_nil_r)
                 ltac:(lia))
      as (x' & r' & HL).
    rewrite HL. exists x', r'.
    rewrite Nat2Z.inj_succ.
    match goal with
    | |- context [0 <? i + 1 + ?z] =>
        replace (i + 1 + z) with (i + Z.succ z) by lia
    end.
    reflexivity.
Qed.

Lemma DecodeAt_prefix_error (t : type) (d : data) (r r1 : Decoder) (x : Z) (e : error) :
  reads_prefix methods t = true ->
  ReadUvarint r = (x, Some e, r1) ->
  DecodeAt methods t d r = Normal (Some e) (d, r1).
Proof.
  intros Hp Hr.
  destruct t as [[n|] s|[n|]|n el|n k el|n kt vt|n fs|el];
    cbn [reads_prefix] in Hp; try discriminate;
    cbn [DecodeAt];
    try (destruct (asBinaryUnmarshaler methods _) as [u|] eqn:Hu;
         try discriminate; unfold decodeBinary);
    rewrite Hr; reflexivity.
Qed.

(** X11.  A length prefix that never ends is an error for every target
    that starts with one ([*string], slices, arrays, maps, types with an
    [UnmarshalBinary]): on input that consists of continuation bytes only,
    [Unmarshal] returns [io.EOF] when there is no input at all,
    [io.ErrUnexpectedEOF] when it stops within the first nine bytes and
    the varint overflow error from ten bytes on, and leaves the target
    alone. *)
Theorem unmarshal_unterminated_prefix (t : type) (old : data) (bs : list byte) :
  reads_prefix methods t = true ->
  Forall (fun b => 128 <= b) bs ->
  (length bs <= defaultBufSize)%nat ->
  Unmarshal methods bs (TPtr t) (DPtr old)
    = Normal (Some (match bs with
                    | [] => EOF
                    | _ => if (length bs <? MaxVarintLen64)%nat
                           then ErrUnexpectedEOF else ErrOverflow
                    end)) (DPtr old).
Proof.
  intros Hp Hbs Hl.
  destruct (ReadUvarint_loop_unterminated bs Hbs MaxVarintLen64 0 0 0 (NewReader bs)
              (ready_NewReader bs Hl) eq_refl ltac:(lia))
    as (x' & r' & HL).
  unfold Unmarshal, Decode, NewDecoder. cbn [deref].
  rewrite (DecodeAt_prefix_error t old (NewReader bs) r' x' _ Hp HL).
  do 2 f_equal.
  destruct bs as [|b bs']; [reflexivity|].
  destruct (length (b :: bs') <? MaxVarintLen64)%nat; [|reflexivity].
  cbn [length]. destruct (Z.ltb_spec 0 (0 + Z.of_nat (S (length bs')))); [reflexivity|lia].
Qed.

End ShortInput.

Lemma unmarshal_scalar_short_input_witness :
  (length [1; 2]%Z < sizeof Int)%nat /\
  Unmarshal test_methods [1; 2] (TPtr (TScalar None Int)) (DPtr (DNum 77))
    = Normal (Some ErrUnexpectedEOF) (DPtr (DNum 0)).
Proof.
  split; [cbn; lia|].
  apply (unmarshal_scalar_short_input test_methods Int [1; 2] (DNum 77)).
  cbn; lia.
Defined.

Lemma unmarshal_unterminated_prefix_witness :
  reads_prefix test_methods (TMap None string_t string_t) = true /\
  Forall (fun b => 128 <= b) [200; 128] /\
  (length [200; 128]%Z <= defaultBufSize)%nat /\
  Unmarshal test_methods [200; 128] (TPtr (TMap None string_t string_t))
    (DPtr (DMap [(str "k", str "v")]))
    = Normal (Some ErrUnexpectedEOF) (DPtr (DMap [(str "k", str "v")])).
Proof.
  assert (HF : Forall (fun b => 128 <= b) [200; 128])
    by (repeat constructor; lia).
  assert (Hl : (length [200; 128]%Z <= defaultBufSize)%nat)
    by (unfold defaultBufSize; cbn; lia).
  split; [reflexivity|]. split; [exact HF|]. split; [exact Hl|].
  exact (unmarshal_unterminated_prefix test_methods (TMap None string_t string_t)
           (DMap [(str "k", str "v")]) [200; 128] eq_refl HF Hl).
Defined.

(** ** What the length prefix decides *)

Section Prefix.

Variable methods : string -> method_set.

Lemma Read_length (n : nat) (r : Reader) :
  (length (fst (fst (Read n r))) <= n)%nat.
Proof.
  unfold Read. destruct n as [|n']; [cbn; lia|].
  destruct (buffered r) as [|c chunk].
  - destruct (defaultBufSize <=? S n')%nat.
    + destruct (source r); cbn [fst]; [cbn; lia|rewrite length_firstn; lia].
    + destruct (firstn defaultBufSize (source r)); cbn [fst];
        [cbn; lia|rewrite length_firstn; lia].
  - cbn [fst]. rewrite length_firstn. lia.
Qed.

Lemma Read_takes (n : nat) (r r' : Reader) (got : list byte) (err : option error) :
  Read n r = (got, err, r') -> avail r = got ++ avail r'.
Proof.
  unfold Read, avail. destruct n as [|n'].
  - intros [= <- <- <-]. reflexivity.
  - destruct (buffered r) as [|c chunk] eqn:Eb.
    + destruct (defaultBufSize <=? S n')%nat.
      * destruct (source r) as [|c l] eqn:Es.
        -- intros [= <- <- <-]. cbn [buffered source]. rewrite Eb, Es.
           reflexivity.
        -- intros H.
           assert (got = firstn (S n') (c :: l) /\
                   r' = mkReader [] (skipn (S n') (c :: l))) as [-> ->]
             by (split; congruence).
           cbn [buffered source app]. symmetry. apply firstn_skipn.
      * destruct (firstn defaultBufSize (source r)) as [|c l] eqn:Ef.
        -- intros [= <- <- <-]. cbn [buffered source]. rewrite Eb.
           reflexivity.
        -- intros H.
           assert (got = firstn (S n') (c :: l) /\
                   r' = mkReader (skipn (S n') (c :: l))
                                 (skipn defaultBufSize (source r))) as [-> ->]
             by (split; congruence).
           cbn [buffered source app].
           rewrite app_assoc, firstn_skipn, <- Ef. symmetry. apply firstn_skipn.
    + intros H.
      assert (got = firstn (S n') (c :: chunk) /\
              r' = mkReader (skipn (S n') (c :: chunk)) (source r)) as [-> ->]
        by (split; congruence).
      cbn [buffered source]. rewrite app_assoc, firstn_skipn. reflexivity.
Qed.

(** What a [readBlob] that returns hands on: the bytes [got] its one
    [Read] took from the front of the input, filled up with zeros to the
    length asked for. *)
Lemma readBlob_takes (l : Z) (r r' : Decoder) (blob : list byte) (err : option error) :
  0 <= l -> readBlob l r = Some (blob, err, r') ->
  exists got, avail r = got ++ avail r' /\
              blob = got ++ repeat 0 (Z.to_nat l - length got) /\
              len blob = l.
Proof.
  intros Hl. unfold readBlob. destruct (maxAlloc <? l); [discriminate|].
  pose proof (Read_length (Z.to_nat l) r) as HR.
  destruct (Read (Z.to_nat l) r) as [[got e] r1] eqn:E. cbn [fst] in HR.
  intros H. inversion H; subst. exists got.
  split; [exact (Read_takes _ _ _ _ _ E)|]. split; [reflexivity|].
  unfold len. rewrite length_app, repeat_length. lia.
Qed.

(** X12.  Whenever [Decode] into a [*string], or into a target with an
    [UnmarshalBinary], returns after it has read the length prefix [l],
    however much the source still held: the string stored, and the blob
    handed to [UnmarshalBinary], has exactly [l] bytes, namely the bytes
    that the one [Read] took from the front of the remaining input
    followed by the zeros [make] had put there; the reader is left behind
    the bytes taken, and the target with an [UnmarshalBinary] returns what
    that method returned. *)
Theorem decoded_length_is_prefix (r r1 r2 : Decoder) (l : Z)
  (err : option error) (d : data) :
  ReadUvarint r = (l, None, r1) ->
  (forall old,
     DecodeAt methods (TString None) old r = Normal err (d, r2) ->
     exists got,
       avail r1 = got ++ avail r2 /\
       d = DStr (got ++ repeat 0 (Z.to_nat l - length got)) /\
       len (got ++ repeat 0 (Z.to_nat l - length got)) = l) /\
  (forall t u old,
     asBinaryUnmarshaler methods t = Some u ->
     DecodeAt methods t old r = Normal err (d, r2) ->
     exists got,
       avail r1 = got ++ avail r2 /\
       len (got ++ repeat 0 (Z.to_nat l - length got)) = l /\
       u old (got ++ repeat 0 (Z.to_nat l - length got)) = (d, err)).
Proof.
  intros Hr.
  pose proof (ReadUvarint_range r) as Hrange. rewrite Hr in Hrange.
  cbn [fst] in Hrange.
  split.
  - intros old. cbn [DecodeAt]. rewrite Hr.
    destruct (readBlob l r1) as [[[blob e] r']|] eqn:HB; [|discriminate].
    intros H. inversion H; subst.
    destruct (readBlob_takes l r1 r2 blob err ltac:(lia) HB)
      as (got & Ha & Hb & Hlen).
    exists got. subst blob. auto.
  - intros t u old Hu. rewrite (DecodeAt_unmarshaler methods t old u Hu).
    unfold decodeBinary. rewrite Hr.
    destruct (readBlob l r1) as [[[blob e] r']|] eqn:HB; [|discriminate].
    destruct (u old blob) as [d' err'] eqn:Eu.
    intros H. inversion H; subst.
    destruct (readBlob_takes l r1 r2 blob e ltac:(lia) HB)
      as (got & Ha & Hb & Hlen).
    exists got. subst blob. auto.
Qed.

(** X13.  A count of 2^63 or more, which [int(l)] turns negative: a
    [*string] target and a target with an [UnmarshalBinary] panic in
    [make], a slice target panics in [reflect.MakeSlice], and a map
    target is set to the empty map with a nil error, its loop running
    zero times. *)
Theorem count_beyond_int (r r1 : Decoder) (l : Z) :
  ReadUvarint r = (l, None, r1) ->
  2 ^ 63 <= l ->
  (forall old, DecodeAt methods (TString None) old r = Panicked LenOutOfRange) /\
  (forall t u old, asBinaryUnmarshaler methods t = Some u ->
                   DecodeAt methods t old r = Panicked LenOutOfRange) /\
  (forall name e old, asBinaryUnmarshaler methods (TSlice name e) = None ->
                      DecodeAt methods (TSlice name e) old r = Panicked LenOutOfRange) /\
  (forall name kt vt old, asBinaryUnmarshaler methods (TMap name kt vt) = None ->
                          DecodeAt methods (TMap name kt vt) old r
                            = Normal None (DMap [], r1)).
Proof.
  intros Hr Hl.
  pose proof (ReadUvarint_range r) as Hrange. rewrite Hr in Hrange.
  cbn [fst] in Hrange.
  assert (HB : readBlob l r1 = None).
  { unfold readBlob, maxAlloc.
    assert (2 ^ 48 < 2 ^ 63) by (cbn; lia).
    destruct (Z.ltb_spec (2 ^ 48) l); [reflexivity|lia]. }
  assert (Hneg : int64 l < 0).
  { unfold int64, signed, wrap. rewrite Z.mod_small by lia.
    change (2 ^ (64 - 1)) with (2 ^ 63).
    destruct (Z.ltb_spec l (2 ^ 63)); lia. }
  repeat split.
  - intros old. cbn [DecodeAt]. rewrite Hr, HB. reflexivity.
  - intros t u old Hu. rewrite (DecodeAt_unmarshaler methods t old u Hu).
    unfold decodeBinary. rewrite Hr, HB. reflexivity.
  - intros name e old Hu. cbn [DecodeAt]. rewrite Hu, Hr.
    destruct (Z.ltb_spec (int64 l) 0); [reflexivity|lia].
  - intros name kt vt old Hu. cbn [DecodeAt]. rewrite Hu, Hr.
    replace (Z.to_nat (int64 l)) with 0%nat by lia. reflexivity.
Qed.

End Prefix.

Lemma decoded_length_is_prefix_witness :
  ReadUvarint (NewDecoder [3; 65]) = (3, None, mkReader [65] []) /\
  DecodeAt test_methods (TString None) (DStr []) (NewDecoder [3; 65])
    = Normal None (DStr [65; 0; 0], mkReader [] []) /\
  exists got,
    avail (mkReader [65] []) = got ++ avail (mkReader [] []) /\
    DStr [65; 0; 0] = DStr (got ++ repeat 0 (Z.to_nat 3 - length got)) /\
    len (got ++ repeat 0 (Z.to_nat 3 - length got)) = 3.
Proof.
  split; [reflexivity|]. split; [reflexivity|].
  apply (proj1 (decoded_length_is_prefix test_methods (NewDecoder [3; 65])
                  (mkReader [65] []) (mkReader [] []) 3 None
                  (DStr [65; 0; 0]) eq_refl) (DStr [])).
  reflexivity.
Defined.

Lemma count_beyond_int_witness :
  ReadUvarint (NewDecoder [255; 255; 255; 255; 255; 255; 255; 255; 255; 1])
    = (2 ^ 64 - 1, None, mkReader [] []) /\
  2 ^ 63 <= 2 ^ 64 - 1 /\
  DecodeAt test_methods (TMap None string_t string_t) (DMap [(str "k", str "v")])
    (NewDecoder [255; 255; 255; 255; 255; 255; 255; 255; 255; 1])
    = Normal None (DMap [], mkReader [] []) /\
  DecodeAt test_methods (TSlice None string_t) (DSeq [])
    (NewDecoder [255; 255; 255; 255; 255; 255; 255; 255; 255; 1])
    = Panicked LenOutOfRange.
Proof.
  assert (H := count_beyond_int test_methods
                 (NewDecoder [255; 255; 255; 255; 255; 255; 255; 255; 255; 1])
                 (mkReader [] []) (2 ^ 64 - 1)
                 ltac:(vm_compute; reflexivity) ltac:(vm_compute; discriminate)).
  destruct H as (_ & _ & Hslice & Hmap).
  split; [vm_compute; reflexivity|]. split; [vm_compute; discriminate|].
  split.
  - exact (Hmap None string_t string_t (DMap [(str "k", str "v")]) eq_refl).
  - exact (Hslice None string_t (DSeq []) eq_refl).
Defined.

(** ** Struct fields that are skipped *)

Section SkippedFields.

Variable methods : string -> method_set.

Lemma decodeFields_skips (self : type -> data -> Decoder -> result decoding)
  (fs : list (string * type)) : forall ds r err ds' r',
  decodeFields self fs ds r = Normal err (ds', r') ->
  length ds' = length ds /\
  forall i fname ft,
    nth_error fs i = Some (fname, ft) ->
    CanSet true fname && negb (String.eqb fname "_") = false ->
    nth_error ds' i = nth_error ds i.
Proof.
  induction fs as [|[name ft] fs IH]; intros ds r err ds' r' H.
  - cbn [decodeFields] in H. inversion H; subst. split; [reflexivity|].
    intros i fname ft' Hn. destruct i; discriminate.
  - destruct ds as [|fd ds]; cbn [decodeFields] in H.
    { inversion H; subst. split; [reflexivity|]. intros. reflexivity. }
    destruct (CanSet true name && negb (String.eqb name "_")) eqn:Hset.
    + destruct (self ft fd r) as [[e|] [fd' r1]|p]; try discriminate.
      * inversion H; subst. split; [reflexivity|].
        intros [|i] fname ft' Hn Hskip; cbn [nth_error] in *; [|reflexivity].
        inversion Hn; subst. congruence.
      * destruct (decodeFields self fs ds r1) as [err2 [ds2 r2]|p] eqn:Hrest;
          try discriminate.
        inversion H; subst. destruct (IH _ _ _ _ _ Hrest) as [Hl Hk].
        split; [cbn [length]; congruence|].
        intros [|i] fname ft' Hn Hskip; cbn [nth_error] in *.
        -- inversion Hn; subst. congruence.
        -- exact (Hk i fname ft' Hn Hskip).
    + destruct (decodeFields self fs ds r) as [err2 [ds2 r2]|p] eqn:Hrest;
        try discriminate.
      inversion H; subst. destruct (IH _ _ _ _ _ Hrest) as [Hl Hk].
      split; [cbn [length]; congruence|].
      intros [|i] fname ft' Hn Hskip; cbn [nth_error] in *.
      -- reflexivity.
      -- exact (Hk i fname ft' Hn Hskip).
Qed.

(** X14.  However a [Decode] into a pointer to a struct ends, with nil or
    with an error part of the way, the struct has the fields it had and
    every field that is unexported or named [_] holds what it held
    before. *)
Theorem decode_keeps_skipped_fields
  (name : option string) (fs : list (string * type)) (ds : list data)
  (r r' : Decoder) (err : option error) (d' : data) :
  asBinaryUnmarshaler methods (TStruct name fs) = None ->
  Decode methods (TPtr (TStruct name fs)) (DPtr (DSeq ds)) r = Normal err (d', r') ->
  exists ds',
    d' = DPtr (DSeq ds') /\ length ds' = length ds /\
    forall i fname ft,
      nth_error fs i = Some (fname, ft) ->
      CanSet true fname && negb (String.eqb fname "_") = false ->
      nth_error ds' i = nth_error ds i.
Proof.
  intros Hu H. unfold Decode in H. cbn [DecodeAt deref elems] in H.
  rewrite Hu in H. unfold withSeq in H.
  destruct (decodeFields (DecodeAt methods) fs ds r) as [err2 [ds2 r2]|p] eqn:HD;
    try discriminate.
  inversion H; subst. exists ds2. split; [reflexivity|].
  exact (decodeFields_skips _ _ _ _ _ _ _ HD).
Qed.

End SkippedFields.

Lemma decode_keeps_skipped_fields_witness :
  asBinaryUnmarshaler test_methods hidden = None /\
  Decode test_methods (TPtr hidden) (DPtr (DSeq [DStr []; DNum 5])) (NewDecoder [1; 65])
    = Normal None (DPtr (DSeq [str "A"; DNum 5]), mkReader [] []) /\
  exists ds',
    DPtr (DSeq [str "A"; DNum 5]) = DPtr (DSeq ds') /\
    length ds' = length [DStr []; DNum 5] /\
    forall i fname ft,
      nth_error [("A"%string, string_t); ("b"%string, int16_t)] i = Some (fname, ft) ->
      CanSet true fname && negb (String.eqb fname "_") = false ->
      nth_error ds' i = nth_error [DStr []; DNum 5] i.
Proof.
  split; [reflexivity|]. split; [reflexivity|].
  exact (decode_keeps_skipped_fields test_methods (Some "hidden"%string)
           [("A"%string, string_t); ("b"%string, int16_t)] [DStr []; DNum 5]
           (NewDecoder [1; 65]) (mkReader [] []) None
           (DPtr (DSeq [str "A"; DNum 5])) eq_refl eq_refl).
Defined.

(** ** Maps *)

Section MapDecoding.

Variable methods : string -> method_set.

Lemma decodes_of_Marshal (t : type) (d : data) (bs : list byte) :
  supported methods t d ->
  Marshal methods t d = Normal None bs ->
  decodes (DecodeAt methods t (zero t)) d bs.
Proof.
  intros Hs Hm. unfold Marshal in Hm.
  match type of Hm with
  | match ?x with _ => _ end = _ => destruct x as [[err|] e|p] eqn:He
  end; try discriminate.
  injection Hm as Hwe. subst bs.
  destruct (roundtrip_supported methods t d Hs (NewEncoder ([] : Buffer)) e eq_refl He)
    as (_ & bs & Hw & Hdec).
  cbn [NewEncoder w app] in Hw. rewrite Hw. exact Hdec.
Qed.

Lemma ReadUvarint_one_byte (c : byte) (rest : list byte) (r : Decoder) :
  0 <= c < 128 -> ready r -> avail r = c :: rest ->
  ReadUvarint r = (c, None, mkReader rest []) /\ ready (mkReader rest []).
Proof.
  intros Hc Hr Ha. destruct (ReadByte_ready r c rest Hr Ha) as [HB Hr'].
  split; [|exact Hr'].
  unfold ReadUvarint. cbn [MaxVarintLen64 ReadUvarint_loop]. rewrite HB.
  destruct (Z.ltb_spec c 128); [|lia]. cbn [Z.eqb andb].
  rewrite Z.shiftl_0_r, Z.lor_0_l. unfold uint64, wrap.
  rewrite Z.mod_small; [reflexivity|]. assert (128 < 2 ^ 64) by (cbn; lia). lia.
Qed.

(** X15.  When the same key is decoded twice, the later value wins and
    the map has one entry: for a count of 2 followed by the encodings of
    [k], [v1], [k], [v2], [Unmarshal] leaves the map target, whatever it
    held, as the map with the single entry [k: v2]. *)
Theorem map_last_write_wins
  (name : option string) (kt vt : type) (k v1 v2 old : data) (bk bv1 bv2 : list byte) :
  asBinaryUnmarshaler methods (TMap name kt vt) = None ->
  supported methods kt k -> supported methods vt v1 -> supported methods vt v2 ->
  key_eq kt k k = true ->
  Marshal methods kt k = Normal None bk ->
  Marshal methods vt v1 = Normal None bv1 ->
  Marshal methods vt v2 = Normal None bv2 ->
  (length (2%Z :: bk ++ bv1 ++ bk ++ bv2) <= defaultBufSize)%nat ->
  Unmarshal methods (2 :: bk ++ bv1 ++ bk ++ bv2) (TPtr (TMap name kt vt)) (DPtr old)
    = Normal None (DPtr (DMap [(k, v2)])).
Proof.
  intros Hu Hk Hv1 Hv2 Heq Hbk Hbv1 Hbv2 Hl.
  pose proof (decodes_of_Marshal kt k bk Hk Hbk) as Dk.
  pose proof (decodes_of_Marshal vt v1 bv1 Hv1 Hbv1) as Dv1.
  pose proof (decodes_of_Marshal vt v2 bv2 Hv2 Hbv2) as Dv2.
  unfold Unmarshal, Decode, NewDecoder. cbn [DecodeAt deref]. rewrite Hu.
  destruct (ReadUvarint_one_byte 2 (bk ++ bv1 ++ bk ++ bv2)
              (NewReader (2 :: bk ++ bv1 ++ bk ++ bv2)) ltac:(lia)
              (ready_NewReader _ Hl) eq_refl) as [HV Hr0].
  rewrite HV. change (Z.to_nat (int64 2)) with 2%nat.
  assert (Ha0 : avail (mkReader (bk ++ bv1 ++ bk ++ bv2) []) = bk ++ bv1 ++ bk ++ bv2)
    by (unfold avail; cbn [buffered source]; apply app_nil_r).
  destruct (Dk _ _ Hr0 Ha0) as (r1 & H1 & Hr1 & Ha1).
  destruct (Dv1 _ _ Hr1 Ha1) as (r2 & H2 & Hr2 & Ha2).
  destruct (Dk _ _ Hr2 Ha2) as (r3 & H3 & Hr3 & Ha3).
  destruct (Dv2 [] r3 Hr3 ltac:(rewrite app_nil_r; exact Ha3)) as (r4 & H4 & _ & _).
  cbn [decodeEntries]. rewrite H1, H2. cbn [SetMapIndex]. rewrite H3, H4.
  cbn [SetMapIndex]. rewrite Heq. reflexivity.
Qed.

End MapDecoding.

Lemma map_last_write_wins_witness :
  asBinaryUnmarshaler test_methods (TMap None string_t string_t) = None /\
  supported test_methods string_t (str "k") /\
  supported test_methods string_t (str "a") /\
  supported test_methods string_t (str "b") /\
  key_eq string_t (str "k") (str "k") = true /\
  Marshal test_methods string_t (str "k") = Normal None [1; 107] /\
  Marshal test_methods string_t (str "a") = Normal None [1; 97] /\
  Marshal test_methods string_t (str "b") = Normal None [1; 98] /\
  (length (2 :: [1; 107] ++ [1; 97] ++ [1; 107] ++ [1; 98])%Z <= defaultBufSize)%nat /\
  Unmarshal test_methods (2 :: [1; 107] ++ [1; 97] ++ [1; 107] ++ [1; 98])
    (TPtr (TMap None string_t string_t)) (DPtr (DMap [(str "x", str "y")]))
    = Normal None (DPtr (DMap [(str "k", str "b")])).
Proof.
  assert (Hs : forall s, supported test_methods string_t (str s))
    by (intros s; vm_compute; eauto).
  assert (Hl : (length (2 :: [1; 107] ++ [1; 97] ++ [1; 107] ++ [1; 98])%Z
                <= defaultBufSize)%nat)
    by (unfold defaultBufSize; cbn; lia).
  repeat (split; [first [reflexivity | apply Hs | exact Hl]|]).
  exact (map_last_write_wins test_methods None string_t string_t
           (str "k") (str "a") (str "b") (DMap [(str "x", str "y")])
           [1; 107] [1; 97] [1; 98]
           eq_refl (Hs "k"%string) (Hs "a"%string) (Hs "b"%string)
           eq_refl eq_refl eq_refl eq_refl Hl).
Defined.

(** ** A sink that fails *)

(** Induction over types, with the fields of a struct. *)
Lemma type_induction (P : type -> Prop) :
  (forall n s, P (TScalar n s)) ->
  (forall n, P (TString n)) ->
  (forall n e, P e -> P (TSlice n e)) ->
  (forall n k e, P e -> P (TArray n k e)) ->
  (forall n k e, P k -> P e -> P (TMap n k e)) ->
  (forall n fs, Forall (fun f => P (snd f)) fs -> P (TStruct n fs)) ->
  (forall e, P e -> P (TPtr e)) ->
  forall t, P t.
Proof.
  intros Hsc Hst Hsl Har Hmap Hstruct Hptr.
  fix IH 1. intros [n s|n|n e|n k e|n k e|n fs|e].
  - apply Hsc.
  - apply Hst.
  - apply Hsl, IH.
  - apply Har, IH.
  - apply Hmap; apply IH.
  - apply Hstruct. revert fs. fix IHfs 1. intros [|[fname ft] fs].
    + constructor.
    + constructor; [apply IH|apply IHfs].
  - apply Hptr, IH.
Qed.

Section FailingSink.

Variable methods : string -> method_set.
Variable e : error.

Lemma owm_return (err : option error) : one_write_at_most e (Normal err).
Proof. intros enc. left. reflexivity. Qed.

Lemma owm_panic (p : panic) : one_write_at_most e (fun _ => Panicked p).
Proof. intros enc. exact I. Qed.

Lemma owm_write (p : list byte) : one_write_at_most e (write (sink := failing_sink e) p).
Proof.
  intros enc. unfold write, Write, failing_sink. cbn [w].
  right. exists p. auto.
Qed.

Lemma owm_writeVarint (v : Z) : one_write_at_most e (writeVarint (sink := failing_sink e) v).
Proof.
  intros enc. unfold writeVarint.
  destruct (PutUvarint (buf enc) (uint64 v)) as [[buf' n]|]; [|exact I].
  apply (owm_write _ (mkEncoder (w enc) buf')).
Qed.

(** The length prefix does not get through: [writeVarint] panics or
    returns the error of the sink. *)
Lemma writeVarint_fails (v : Z) (enc : Encoder (list (list byte))) :
  match writeVarint (sink := failing_sink e) v enc with
  | Normal None _ => False
  | _ => True
  end.
Proof.
  unfold writeVarint.
  destruct (PutUvarint (buf enc) (uint64 v)) as [[buf' n]|]; exact I.
Qed.

Lemma owm_andThen a b :
  one_write_at_most e a -> one_write_at_most e b -> one_write_at_most e (a ;; b).
Proof.
  intros Ha Hb enc. unfold andThen. specialize (Ha enc).
  destruct (a enc) as [[err|] enc1|p]; [exact Ha| |exact I].
  destruct Ha as [Hw|(p & _ & Hp)]; [|discriminate].
  specialize (Hb enc1). destruct (b enc1) as [err2 enc2|p]; [|exact I].
  rewrite Hw in Hb. exact Hb.
Qed.

Lemma owm_forEach {A : Type} (body : A -> _) (l : list A) :
  (forall x, one_write_at_most e (body x)) -> one_write_at_most e (forEach body l).
Proof.
  intros Hb. induction l as [|x l IH]; cbn [forEach].
  - apply owm_return.
  - apply owm_andThen; [apply Hb|exact IH].
Qed.

Lemma owm_encodeFields self (a : bool) (fs : list (string * type)) :
  Forall (fun f => forall d, one_write_at_most e (self (snd f) d)) fs ->
  forall ds, one_write_at_most e (encodeFields self a fs ds).
Proof.
  induction 1 as [|[name ft] fs Hf _ IH]; intros ds; cbn [encodeFields].
  - apply owm_return.
  - destruct ds as [|fd ds]; [apply owm_return|].
    apply owm_andThen; [|apply IH].
    destruct (CanSet a name && negb (String.eqb name "_"));
      [apply Hf|apply owm_return].
Qed.

Lemma owm_marshaler (t : type) (d : data) m :
  asBinaryMarshaler methods t = Some m ->
  one_write_at_most e (Encode (sink := failing_sink e) methods t d).
Proof.
  intros Hm. rewrite (Encode_marshaler methods (sink := failing_sink e) t d m Hm).
  destruct (m d) as [blob [err|]].
  - apply owm_return.
  - intros enc. unfold andThen.
    pose proof (owm_writeVarint (len blob) enc) as Hv.
    pose proof (writeVarint_fails (len blob) enc) as Hf.
    destruct (writeVarint (sink := failing_sink e) (len blob) enc)
      as [[err|] enc1|p]; [exact Hv|contradiction|exact I].
Qed.

Ltac owm_basic :=
  repeat first [ apply owm_andThen | apply owm_writeVarint | apply owm_write
               | apply owm_return | apply owm_panic ].

Lemma owm_Encode (t : type) :
  (forall d, one_write_at_most e (Encode (sink := failing_sink e) methods t d)) /\
  (forall a d, one_write_at_most e
       (encodeValue (sink := failing_sink e)
          (Encode (sink := failing_sink e) methods) t d a)).
Proof.
  induction t as [n s|n|n el [IHe _]|n k el [IHe _]|n kt vt [IHk _] [IHv _]|n fs IHfs
                 |el [_ IHe]] using type_induction.
  - assert (Hv : forall a d, one_write_at_most e
                               (encodeValue (sink := failing_sink e) (Encode (sink := failing_sink e) methods) (TScalar n s) d a))
      by (intros; cbn [encodeValue]; apply owm_return).
    split; [|exact Hv]. intros d.
    destruct (asBinaryMarshaler methods (TScalar n s)) as [m|] eqn:Hm;
      [exact (owm_marshaler _ d m Hm)|].
    destruct n as [n|]; [cbn [Encode]; rewrite Hm; apply Hv|].
    cbn [Encode]. rewrite Hm.
    destruct s; cbv zeta; unfold binaryWrite; apply owm_write.
  - assert (Hv : forall a d, one_write_at_most e
                               (encodeValue (sink := failing_sink e) (Encode (sink := failing_sink e) methods) (TString n) d a))
      by (intros; cbn [encodeValue]; apply owm_return).
    split; [|exact Hv]. intros d.
    destruct (asBinaryMarshaler methods (TString n)) as [m|] eqn:Hm;
      [exact (owm_marshaler _ d m Hm)|].
    destruct n as [n|]; cbn [Encode]; rewrite Hm; [apply Hv|].
    destruct d; owm_basic.
  - assert (Hv : forall a d, one_write_at_most e
                               (encodeValue (sink := failing_sink e) (Encode (sink := failing_sink e) methods) (TSlice n el) d a)).
    { intros; cbn [encodeValue]. apply owm_andThen; [apply owm_writeVarint|].
      apply owm_forEach. exact IHe. }
    split; [|exact Hv]. intros d.
    destruct (asBinaryMarshaler methods (TSlice n el)) as [m|] eqn:Hm;
      [exact (owm_marshaler _ d m Hm)|].
    destruct n as [n|]; [cbn [Encode]; rewrite Hm; apply Hv|].
    destruct el as [[n'|] s| | | | | |];
      try (cbn [Encode]; rewrite Hm; apply Hv).
    destruct s; try (cbn [Encode]; rewrite Hm; apply Hv).
    cbn [Encode]. rewrite Hm. owm_basic.
  - assert (Hv : forall a d, one_write_at_most e
                               (encodeValue (sink := failing_sink e) (Encode (sink := failing_sink e) methods) (TArray n k el) d a)).
    { intros; cbn [encodeValue]. apply owm_andThen; [apply owm_writeVarint|].
      apply owm_forEach. exact IHe. }
    split; [|exact Hv]. intros d.
    destruct (asBinaryMarshaler methods (TArray n k el)) as [m|] eqn:Hm;
      [exact (owm_marshaler _ d m Hm)|].
    cbn [Encode]. rewrite Hm. apply Hv.
  - assert (Hv : forall a d, one_write_at_most e
                               (encodeValue (sink := failing_sink e) (Encode (sink := failing_sink e) methods) (TMap n kt vt) d a)).
    { intros; cbn [encodeValue]. apply owm_andThen; [apply owm_writeVarint|].
      apply owm_forEach. intros key. apply owm_andThen; [apply IHk|].
      destruct (MapIndex kt (entries d) key); [apply IHv|apply owm_panic]. }
    split; [|exact Hv]. intros d.
    destruct (asBinaryMarshaler methods (TMap n kt vt)) as [m|] eqn:Hm;
      [exact (owm_marshaler _ d m Hm)|].
    cbn [Encode]. rewrite Hm. apply Hv.
  - assert (Hv : forall a d, one_write_at_most e
                               (encodeValue (sink := failing_sink e) (Encode (sink := failing_sink e) methods) (TStruct n fs) d a)).
    { intros; cbn [encodeValue]. apply owm_encodeFields.
      eapply Forall_impl; [|exact IHfs]. intros f [Hf _]. exact Hf. }
    split; [|exact Hv]. intros d.
    destruct (asBinaryMarshaler methods (TStruct n fs)) as [m|] eqn:Hm;
      [exact (owm_marshaler _ d m Hm)|].
    cbn [Encode]. rewrite Hm. apply Hv.
  - split; [|intros; cbn [encodeValue]; apply owm_return]. intros d.
    destruct (asBinaryMarshaler methods (TPtr el)) as [m|] eqn:Hm;
      [exact (owm_marshaler _ d m Hm)|].
    cbn [Encode]. rewrite Hm. apply IHe.
Qed.

(** X16.  On a sink whose [Write] fails, [Encode] gives up at the first
    [Write]: whatever the value, the call either ends without having
    asked the sink for anything (nothing to write, an unsupported type, a
    failed [MarshalBinary]) or has asked for exactly one [Write] and
    returns the error of the sink; it never tries a second [Write]. *)
Theorem encode_stops_at_failed_write (t : type) (d : data)
  (enc : Encoder (list (list byte))) :
  match Encode (sink := failing_sink e) methods t d enc with
  | Panicked _ => True
  | Normal err enc' =>
      w enc' = w enc \/ exists p, w enc' = w enc ++ [p] /\ err = Some e
  end.
Proof. exact (proj1 (owm_Encode t) d enc). Qed.

End FailingSink.

(** ** The decoder only moves forward *)

Lemma advanced_refl (r : Reader) : advanced r r.
Proof. exists []. reflexivity. Qed.

Lemma advanced_trans (r1 r2 r3 : Reader) :
  advanced r1 r2 -> advanced r2 r3 -> advanced r1 r3.
Proof.
  intros [u1 H1] [u2 H2]. exists (u1 ++ u2). rewrite H1, H2. apply app_assoc.
Qed.

Lemma advanced_mk (r : Reader) (used buffered' source' : list byte) :
  avail r = used ++ buffered' ++ source' ->
  advanced r (mkReader buffered' source').
Proof. intros H. exists used. exact H. Qed.

Lemma ReadByte_advanced (r : Reader) : advanced r (snd (ReadByte r)).
Proof.
  unfold ReadByte. destruct (buffered r) as [|c rest] eqn:Eb.
  - destruct (firstn defaultBufSize (source r)) as [|c rest] eqn:Ef; cbn [snd].
    + apply advanced_refl.
    + apply (advanced_mk r [c]). unfold avail. rewrite Eb. cbn [app].
      rewrite <- (firstn_skipn defaultBufSize (source r)) at 1.
      rewrite Ef. reflexivity.
  - cbn [snd]. apply (advanced_mk r [c]). unfold avail. rewrite Eb. reflexivity.
Qed.

Lemma Read_advanced (n : nat) (r : Reader) : advanced r (snd (Read n r)).
Proof.
  unfold Read. destruct n as [|n']; [apply advanced_refl|].
  destruct (buffered r) as [|c chunk] eqn:Eb.
  - destruct (defaultBufSize <=? S n')%nat.
    + destruct (source r) as [|c l] eqn:Es; cbn [snd]; [apply advanced_refl|].
      apply (advanced_mk r (firstn (S n') (c :: l))). unfold avail.
      rewrite Eb, Es. cbn [app]. symmetry. apply firstn_skipn.
    + destruct (firstn defaultBufSize (source r)) as [|c l] eqn:Ef; cbn [snd];
        [apply advanced_refl|].
      apply (advanced_mk r (firstn (S n') (c :: l))). unfold avail.
      rewrite Eb. cbn [app]. rewrite app_assoc, firstn_skipn, <- Ef.
      symmetry. apply firstn_skipn.
  - cbn [snd]. apply (advanced_mk r (firstn (S n') (c :: chunk))). unfold avail.
    rewrite Eb. rewrite app_assoc, firstn_skipn. reflexivity.
Qed.

Lemma ReadAtLeast_advanced (fuel : nat) : forall need r,
  advanced r (snd (ReadAtLeast fuel need r)).
Proof.
  induction fuel as [|fuel IH]; intros need r.
  - destruct need; apply advanced_refl.
  - destruct need as [|need']; [apply advanced_refl|]. cbn [ReadAtLeast].
    pose proof (Read_advanced (S need') r) as HR.
    destruct (Read (S need') r) as [[got [err|]] r1]; cbn [snd] in *; [exact HR|].
    specialize (IH (S need' - length got)%nat r1).
    destruct (ReadAtLeast fuel (S need' - length got) r1) as [[more err'] r2].
    cbn [snd] in *. exact (advanced_trans _ _ _ HR IH).
Qed.

Lemma ReadFull_advanced (n : nat) (r : Reader) : advanced r (snd (ReadFull n r)).
Proof.
  unfold ReadFull. pose proof (ReadAtLeast_advanced n n r) as H.
  destruct (ReadAtLeast n n r) as [[got err] r1]. cbn [snd] in H.
  destruct err as [[]|]; exact H.
Qed.

Lemma ReadUvarint_loop_advanced (n : nat) : forall i x s r,
  advanced r (snd (ReadUvarint_loop n i x s r)).
Proof.
  induction n as [|n IH]; intros i x s r; cbn [ReadUvarint_loop].
  - apply advanced_refl.
  - pose proof (ReadByte_advanced r) as HB.
    destruct (ReadByte r) as [[b [err|]] r1]; cbn [snd] in *; [exact HB|].
    destruct (b <? 128).
    + destruct ((i =? Z.of_nat MaxVarintLen64 - 1) && (1 <? b)); exact HB.
    + exact (advanced_trans _ _ _ HB (IH _ _ _ r1)).
Qed.

Lemma ReadUvarint_advanced (r r1 : Reader) (l : Z) (err : option error) :
  ReadUvarint r = (l, err, r1) -> advanced r r1.
Proof.
  intros H. pose proof (ReadUvarint_loop_advanced MaxVarintLen64 0 0 0 r) as HA.
  unfold ReadUvarint in H. rewrite H in HA. exact HA.
Qed.

Lemma readBlob_advanced (l : Z) (r r' : Reader) blob err :
  readBlob l r = Some (blob, err, r') -> advanced r r'.
Proof.
  unfold readBlob. destruct (maxAlloc <? l); [discriminate|].
  pose proof (Read_advanced (Z.to_nat l) r) as HR.
  destruct (Read (Z.to_nat l) r) as [[got e] r1]. cbn [snd] in HR.
  intros H. inversion H; subst. exact HR.
Qed.

Lemma binaryRead_advanced (o : ByteOrder) (s : scalar) (r : Reader) :
  advanced r (snd (binaryRead o s r)).
Proof.
  unfold binaryRead. pose proof (ReadFull_advanced (sizeof s) r) as H.
  destruct (ReadFull (sizeof s) r) as [[bs [err|]] r1]; exact H.
Qed.

(** [dec] leaves the reader further on, however it ends. *)
Lemma decodeBinary_advanced u (d : data) (r r' : Reader) err d' :
  decodeBinary u d r = Normal err (d', r') -> advanced r r'.
Proof.
  unfold decodeBinary.
  destruct (ReadUvarint r) as [[l [e|]] r1] eqn:HV; intros H.
  - inversion H; subst. exact (ReadUvarint_advanced _ _ _ _ HV).
  - destruct (readBlob l r1) as [[[blob e] r2]|] eqn:HB; [|discriminate].
    destruct (u d blob) as [d2 err2]. inversion H; subst.
    exact (advanced_trans _ _ _ (ReadUvarint_advanced _ _ _ _ HV)
             (readBlob_advanced _ _ _ _ _ HB)).
Qed.

Lemma decodeElems_advanced (dec : data -> Decoder -> result decoding) :
  (forall x r err x' r', dec x r = Normal err (x', r') -> advanced r r') ->
  forall ds r err ds' r',
    decodeElems dec ds r = Normal err (ds', r') -> advanced r r'.
Proof.
  intros Hdec. induction ds as [|x ds IH]; intros r err ds' r' H;
    cbn [decodeElems] in H.
  - inversion H; subst. apply advanced_refl.
  - destruct (dec x r) as [[e|] [x1 r1]|p] eqn:Hx; try discriminate.
    + inversion H; subst. exact (Hdec _ _ _ _ _ Hx).
    + destruct (decodeElems dec ds r1) as [e2 [ds2 r2]|p] eqn:Hrest;
        try discriminate.
      inversion H; subst.
      exact (advanced_trans _ _ _ (Hdec _ _ _ _ _ Hx) (IH _ _ _ _ Hrest)).
Qed.

Lemma decodeEntries_advanced (kt vt : type)
  (decK decV : data -> Decoder -> result decoding) :
  (forall x r err x' r', decK x r = Normal err (x', r') -> advanced r r') ->
  (forall x r err x' r', decV x r = Normal err (x', r') -> advanced r r') ->
  forall n m r err m' r',
    decodeEntries kt vt decK decV n m r = Normal err (m', r') -> advanced r r'.
Proof.
  intros HK HV. induction n as [|n IH]; intros m r err m' r' H;
    cbn [decodeEntries] in H.
  - inversion H; subst. apply advanced_refl.
  - destruct (decK (zero kt) r) as [[e|] [kv r1]|p] eqn:Hk; try discriminate.
    + inversion H; subst. exact (HK _ _ _ _ _ Hk).
    + destruct (decV (zero vt) r1) as [[e|] [vv r2]|p] eqn:Hv; try discriminate.
      * inversion H; subst.
        exact (advanced_trans _ _ _ (HK _ _ _ _ _ Hk) (HV _ _ _ _ _ Hv)).
      * exact (advanced_trans _ _ _ (HK _ _ _ _ _ Hk)
                 (advanced_trans _ _ _ (HV _ _ _ _ _ Hv) (IH _ _ _ _ _ H))).
Qed.

Lemma decodeFields_advanced (self : type -> data -> Decoder -> result decoding)
  (fs : list (string * type)) :
  Forall (fun f => forall x r err x' r',
                     self (snd f) x r = Normal err (x', r') -> advanced r r') fs ->
  forall ds r err ds' r',
    decodeFields self fs ds r = Normal err (ds', r') -> advanced r r'.
Proof.
  induction 1 as [|[name ft] fs Hf _ IH]; intros ds r err ds' r' H;
    cbn [decodeFields] in H.
  - inversion H; subst. apply advanced_refl.
  - destruct ds as [|fd ds]; [inversion H; subst; apply advanced_refl|].
    cbn [snd] in Hf.
    destruct (CanSet true name && negb (String.eqb name "_")).
    + destruct (self ft fd r) as [[e|] [fd1 r1]|p] eqn:Hx; try discriminate.
      * inversion H; subst. exact (Hf _ _ _ _ _ Hx).
      * destruct (decodeFields self fs ds r1) as [e2 [ds2 r2]|p] eqn:Hrest;
          try discriminate.
        inversion H; subst.
        exact (advanced_trans _ _ _ (Hf _ _ _ _ _ Hx) (IH _ _ _ _ _ Hrest)).
    + destruct (decodeFields self fs ds r) as [e2 [ds2 r2]|p] eqn:Hrest;
        try discriminate.
      inversion H; subst. exact (IH _ _ _ _ _ Hrest).
Qed.

Section Forward.

Variable methods : string -> method_set.

Lemma DecodeAt_advanced (t : type) : forall d r err d' r',
  DecodeAt methods t d r = Normal err (d', r') -> advanced r r'.
Proof.
  induction t as [n s|n|n el IHe|n k el IHe|n kt vt IHk IHv|n fs IHfs|el IHe]
    using type_induction; intros d r err d' r' H;
    (match type of H with
     | DecodeAt _ ?t0 _ _ = _ =>
         destruct (asBinaryUnmarshaler methods t0) as [u|] eqn:Hu;
         [rewrite (DecodeAt_unmarshaler methods t0 d u Hu) in H;
          exact (decodeBinary_advanced _ _ _ _ _ _ H)|]
     end).
  - destruct n as [n|].
    + cbn [DecodeAt] in H. rewrite Hu in H. inversion H; subst. apply advanced_refl.
    + destruct s; cbn [DecodeAt] in H;
        match type of H with
        | context [binaryRead ?o ?s' r] =>
            pose proof (binaryRead_advanced o s' r) as HR;
            destruct (binaryRead o s' r) as [[out e] r1]
        end; cbn [snd] in HR; inversion H; subst; exact HR.
  - destruct n as [n|]; cbn [DecodeAt] in H.
    + rewrite Hu in H. inversion H; subst. apply advanced_refl.
    + destruct (ReadUvarint r) as [[l [e|]] r1] eqn:HV.
      * inversion H; subst. exact (ReadUvarint_advanced _ _ _ _ HV).
      * destruct (readBlob l r1) as [[[blob e] r2]|] eqn:HB; [|discriminate].
        inversion H; subst.
        exact (advanced_trans _ _ _ (ReadUvarint_advanced _ _ _ _ HV)
                 (readBlob_advanced _ _ _ _ _ HB)).
  - cbn [DecodeAt] in H. rewrite Hu in H.
    destruct (ReadUvarint r) as [[l [e|]] r1] eqn:HV.
    + inversion H; subst. exact (ReadUvarint_advanced _ _ _ _ HV).
    + destruct (int64 l <? 0); [discriminate|]. unfold withSeq in H.
      destruct (decodeElems _ _ r1) as [e2 [ds2 r2]|p] eqn:HD; [|discriminate].
      inversion H; subst.
      exact (advanced_trans _ _ _ (ReadUvarint_advanced _ _ _ _ HV)
               (decodeElems_advanced _ IHe _ _ _ _ _ HD)).
  - cbn [DecodeAt] in H. rewrite Hu in H.
    destruct (ReadUvarint r) as [[l [e|]] r1] eqn:HV.
    + inversion H; subst. exact (ReadUvarint_advanced _ _ _ _ HV).
    + destruct (negb (int64 l =? Z.of_nat k)).
      * inversion H; subst. exact (ReadUvarint_advanced _ _ _ _ HV).
      * unfold withSeq in H.
        destruct (decodeElems _ _ r1) as [e2 [ds2 r2]|p] eqn:HD; [|discriminate].
        inversion H; subst.
        exact (advanced_trans _ _ _ (ReadUvarint_advanced _ _ _ _ HV)
                 (decodeElems_advanced _ IHe _ _ _ _ _ HD)).
  - cbn [DecodeAt] in H. rewrite Hu in H.
    destruct (ReadUvarint r) as [[l [e|]] r1] eqn:HV.
    + inversion H; subst. exact (ReadUvarint_advanced _ _ _ _ HV).
    + unfold withMap in H.
      destruct (decodeEntries _ _ _ _ _ _ r1) as [e2 [m2 r2]|p] eqn:HD;
        [|discriminate].
      inversion H; subst.
      exact (advanced_trans _ _ _ (ReadUvarint_advanced _ _ _ _ HV)
               (decodeEntries_advanced _ _ _ _ IHk IHv _ _ _ _ _ _ HD)).
  - cbn [DecodeAt] in H. rewrite Hu in H. unfold withSeq in H.
    destruct (decodeFields _ _ _ r) as [e2 [ds2 r2]|p] eqn:HD; [|discriminate].
    inversion H; subst.
    exact (decodeFields_advanced _ _ IHfs _ _ _ _ _ HD).
  - cbn [DecodeAt] in H. rewrite Hu in H. inversion H; subst. apply advanced_refl.
Qed.

(** X17.  [Decode] only moves forward: however a call ends, with nil or
    with an error, what the reader has left to deliver afterwards is what
    it had before with some bytes taken from the front, so nothing is
    read twice and nothing behind the bytes taken is touched. *)
Theorem decode_only_advances (t : type) (d d' : data) (r r' : Decoder)
  (err : option error) :
  Decode methods t d r = Normal err (d', r') ->
  exists used, avail r = used ++ avail r'.
Proof.
  unfold Decode. destruct t as [n s|n|n el|n k el|n kt vt|n fs|el]; intros H;
    try (destruct (UnmarshalBinary (methods_of methods _)) as [[[|] u]|];
         first [ exact (decodeBinary_advanced _ _ _ _ _ _ H)
               | inversion H; subst; apply advanced_refl ]).
  destruct (DecodeAt methods el (deref d) r) as [e2 [d2 r2]|p] eqn:HD;
    [|discriminate].
  inversion H; subst. exact (DecodeAt_advanced _ _ _ _ _ _ HD).
Qed.

End Forward.

Lemma decode_only_advances_witness :
  Decode test_methods (TPtr string_t) (DPtr (DStr [])) (NewDecoder [1; 65; 7; 8])
    = Normal None (DPtr (str "A"), mkReader [7; 8] []) /\
  exists used, avail (NewDecoder [1; 65; 7; 8]) = used ++ avail (mkReader [7; 8] []).
Proof.
  split; [reflexivity|].
  exact (decode_only_advances test_methods (TPtr string_t) (DPtr (DStr []))
           (DPtr (str "A")) (NewDecoder [1; 65; 7; 8]) (mkReader [7; 8] []) None
           eq_refl).
Defined.

(** ** Map keys that equal nothing *)

Lemma float_eq_nan (m e x : Z) :
  float_eq m e x x = false -> forall y, float_eq m e y x = false.
Proof.
  unfold float_eq. intros H y.
  destruct ((Z.shiftr x m mod 2 ^ e =? 2 ^ e - 1) && negb (x mod 2 ^ m =? 0)).
  - cbn [negb]. rewrite andb_false_r. reflexivity.
  - cbn [negb andb] in H. rewrite Z.eqb_refl in H. discriminate.
Qed.

Lemma MapIndex_nan (x : Z) (m : list (data * data)) :
  float_eq 52 11 x x = false ->
  MapIndex (TScalar None Float64) m (DNum x) = None.
Proof.
  intros Hx. induction m as [|[k v] m IH]; cbn [MapIndex]; [reflexivity|].
  replace (key_eq (TScalar None Float64) k (DNum x)) with false; [exact IH|].
  cbn [key_eq scalar_eq]. destruct k; try reflexivity.
  symmetry. apply float_eq_nan. exact Hx.
Qed.

(** X18.  [Marshal] of a map whose first key is a float64 NaN panics: the
    count and the key are written, then [rv.MapIndex(key)] finds no entry
    for a key that equals nothing, and [value.Interface()] is called on
    the zero Value. *)
Theorem marshal_nan_key_panics (methods : string -> method_set)
  (name : option string) (vt : type) (x : Z) (v : data) (m : list (data * data)) :
  asBinaryMarshaler methods (TMap name (TScalar None Float64) vt) = None ->
  float_eq 52 11 x x = false ->
  len ((DNum x, v) :: m) < 2 ^ 56 ->
  Marshal methods (TMap name (TScalar None Float64) vt) (DMap ((DNum x, v) :: m))
    = Panicked ZeroValue.
Proof.
  intros Hm Hx Hlen. unfold Marshal.
  replace (Encode methods (TMap name (TScalar None Float64) vt)
             (DMap ((DNum x, v) :: m)))
    with (writeVarint (W := Buffer) (len ((DNum x, v) :: m)) ;;
          forEach (fun key =>
                     Encode methods (TScalar None Float64) key ;;
                     match MapIndex (TScalar None Float64) ((DNum x, v) :: m) key with
                     | Some value => Encode methods vt value
                     | None => fun _ => Panicked ZeroValue
                     end) (map fst ((DNum x, v) :: m)))
    by (cbn [Encode]; rewrite Hm; reflexivity).
  assert (Hv : exists e1, writeVarint (W := Buffer) (len ((DNum x, v) :: m))
                            (NewEncoder (W := Buffer) []) = Normal None e1).
  { unfold writeVarint, NewEncoder. cbn [buf w].
    assert (Hu : uint64 (len ((DNum x, v) :: m)) = len ((DNum x, v) :: m)).
    { unfold uint64, wrap, len in *. apply Z.mod_small.
      assert (2 ^ 56 < 2 ^ 64) by (cbn; lia). lia. }
    rewrite Hu.
    destruct (PutUvarint_fits (repeat 0 8%nat) (len ((DNum x, v) :: m))
                ltac:(discriminate)
                ltac:(cbn [repeat length];
                      change (2 ^ (7 * Z.of_nat 8)) with (2 ^ 56);
                      unfold len in *; lia))
      as (buf' & n & HP).
    rewrite HP. eexists. reflexivity. }
  destruct Hv as (e1 & Hv).
  unfold andThen at 1. rewrite Hv.
  cbn [map fst forEach]. unfold andThen.
  rewrite Encode_scalar. unfold write at 1, Write, Buffer_Writer.
  rewrite (MapIndex_nan x ((DNum x, v) :: m) Hx). reflexivity.
Qed.

Lemma marshal_nan_key_panics_witness :
  asBinaryMarshaler test_methods (TMap None (TScalar None Float64) string_t) = None /\
  float_eq 52 11 0x7ff8000000000001 0x7ff8000000000001 = false /\
  len [(DNum 0x7ff8000000000001, str "v")] < 2 ^ 56 /\
  Marshal test_methods (TMap None (TScalar None Float64) string_t)
    (DMap [(DNum 0x7ff8000000000001, str "v")])
    = Panicked ZeroValue.
Proof.
  split; [reflexivity|]. split; [vm_compute; reflexivity|].
  split; [vm_compute; reflexivity|].
  apply (marshal_nan_key_panics test_methods None string_t 0x7ff8000000000001
           (str "v") []); [reflexivity|vm_compute; reflexivity|vm_compute; reflexivity].
Defined.
